(** * A log-structured key-value store (Bitcask): model and verification

    The development embeds the storage engine of [internal/bitcask]
    ([logfile.go], [bitcask.go], [operations.go]) and proves properties of
    its record format, its operations and its recovery by log replay.

    Conventions.
    - Unsigned 32-bit integers are [Z] with the wrap-around written out
      ([u32]).  File offsets and sizes are [int64]/[uint64] in the source;
      the operating system bounds the length of a file far below [2^63], so
      additions of offsets never wrap and they are kept in [Z].
    - A Go [string] and a [[]byte] are both byte sequences: keys are
      [string], file contents and values are [list byte], and
      [list_byte_of_string] / [string_of_list_byte] are the conversions
      [[]byte(key)] and [string(entry.Key)].
    - The directory of the database is a finite map from segment id to the
      contents of the file [%010d.bitcask] of that id; it exists, and files
      with other names, which the engine skips, are left out.
    - Calls of the operating system that change the disk (creating a file,
      writing, fsync) can fail; which ones do is given by an oracle that
      every engine operation receives.  Reading, listing the directory and
      closing a handle are taken to be reliable.
    - [time.Now().Unix()] is an argument of [Put] and [Delete].
    - The lock of the engine serializes the operations; they are modelled
      one after the other.

    Organisation: the model (definitions translated from the source, then
    the predicates and example states the statements use) comes first, the
    lemmas and the theorems follow. *)

From Stdlib Require Import ZArith Lia List.
From Stdlib.Strings Require Import Byte.
From stdpp Require Import gmap strings list fin_maps sorting.

Local Open Scope Z_scope.

(** ** Machine integers and little-endian words *)

Definition u32 (z : Z) : Z := z mod 2 ^ 32.

Definition byte_of_Z (z : Z) : byte :=
  default "000"%byte (Byte.of_N (Z.to_N (z mod 256))).

Definition Z_of_byte (b : byte) : Z := Z.of_N (Byte.to_N b).

(** [binary.LittleEndian.PutUint32] and [binary.LittleEndian.Uint32]. *)
Definition PutUint32 (v : Z) : list byte :=
  [byte_of_Z v; byte_of_Z (v ≫ 8); byte_of_Z (v ≫ 16); byte_of_Z (v ≫ 24)].

Definition Uint32 (b : list byte) : Z :=
  match b with
  | [b0; b1; b2; b3] =>
      Z.lor (Z.lor (Z.lor (Z_of_byte b0) (Z_of_byte b1 ≪ 8))
                   (Z_of_byte b2 ≪ 16)) (Z_of_byte b3 ≪ 24)
  | _ => 0
  end.

Definition len {A} (l : list A) : Z := Z.of_nat (length l).

(** ** Errors *)

Inductive error :=
| EOF                                  (* io.EOF *)
| ErrUnexpectedEOF                     (* io.ErrUnexpectedEOF *)
| ErrOS (call : string)                (* a failing system call *)
| ErrMsg (msg : string)                (* fmt.Errorf without %w *)
| ErrWrap (msg : string) (e : error).  (* fmt.Errorf("msg: %w", e) *)

(** [err.Error()] *)
Fixpoint Error (e : error) : string :=
  match e with
  | EOF => "EOF"
  | ErrUnexpectedEOF => "unexpected EOF"
  | ErrOS call => call +:+ ": input/output error"
  | ErrMsg msg => msg
  | ErrWrap msg e => msg +:+ ": " +:+ Error e
  end.

Inductive result (A : Type) :=
| Ok (a : A)
| Err (e : error).
Arguments Ok {A} a.
Arguments Err {A} e.

#[global] Instance result_ret : MRet result := λ A a, Ok a.
#[global] Instance result_bind : MBind result := λ A B k r,
  match r with
  | Ok a => k a
  | Err e => Err e
  end.

(** ** Log entries (logfile.go) *)

Record LogEntry := {
  le_Timestamp : Z;        (* uint32 *)
  le_KeySize : Z;          (* uint32 *)
  le_ValueSize : Z;        (* uint32, 0 for a tombstone *)
  le_Key : list byte;
  le_Value : list byte;
}.

(** The bytes [LogFile.Write] hands to its writer, in order: three
    little-endian words, the key and the value. *)
Definition encode (e : LogEntry) : list byte :=
  PutUint32 (le_Timestamp e) ++ PutUint32 (le_KeySize e)
    ++ PutUint32 (le_ValueSize e) ++ le_Key e ++ le_Value e.

(** [io.ReadFull(r, buf)] with [len(buf) = n] on a reader with the bytes [r]
    left: nothing is read for an empty buffer; no byte at all gives [io.EOF],
    fewer than [n] give [io.ErrUnexpectedEOF]. *)
Definition io_ReadFull (r : list byte) (n : nat) : result (list byte * list byte) :=
  match n with
  | O => Ok ([], r)
  | _ =>
      match r with
      | [] => Err EOF
      | _ => if (length r <? n)%nat then Err ErrUnexpectedEOF
             else Ok (take n r, drop n r)
      end
  end.

(** [binary.Read(reader, binary.LittleEndian, &x)] for [x : uint32]. *)
Definition binary_Read_u32 (r : list byte) : result (Z * list byte) :=
  ' (bs, r') ← io_ReadFull r 4 ; Ok (Uint32 bs, r').

(** [LogFile.ReadEntry] on a file with the given contents. *)
Definition ReadEntry (content : list byte) (pos : Z) : result (LogEntry * Z) :=
  if pos <? 0 then Err (ErrOS "seek") else
  let reader := drop (Z.to_nat pos) content in
  ' (timestamp, reader) ← binary_Read_u32 reader ;
  ' (keySize, reader) ← binary_Read_u32 reader ;
  ' (valueSize, reader) ← binary_Read_u32 reader ;
  ' (key, reader) ← io_ReadFull reader (Z.to_nat keySize) ;
  ' (value, _) ← io_ReadFull reader (Z.to_nat valueSize) ;
  let entry := {| le_Timestamp := timestamp; le_KeySize := keySize;
                  le_ValueSize := valueSize; le_Key := key; le_Value := value |} in
  let nextPos := pos + 12 + keySize + valueSize in
  Ok (entry, nextPos).

(** A record as [Put] and [Delete] build it: the size fields are the lengths
    of the slices and every field fits its 32 bits. *)
Definition wf_entry (e : LogEntry) : Prop :=
  0 ≤ le_Timestamp e < 2 ^ 32 ∧
  le_KeySize e = len (le_Key e) ∧ le_ValueSize e = len (le_Value e) ∧
  len (le_Key e) < 2 ^ 32 ∧ len (le_Value e) < 2 ^ 32.

(** ** The disk and the faults of the operating system *)

(** The outcome of one call that changes the disk.  [Fail n]: the call
    returns an error; for a write, the first [n] bytes reached the file
    before it failed. *)
Inductive outcome := Succeed | Fail (n : nat).

Record World := {
  files : gmap Z (list byte);   (* segment id ↦ contents of its file *)
  oracle : list outcome;        (* outcomes of the coming calls; all succeed once it is used up *)
}.

Definition next_outcome (w : World) : outcome * World :=
  match oracle w with
  | [] => (Succeed, w)
  | o :: os => (o, {| files := files w; oracle := os |})
  end.

Definition file_content (fs : gmap Z (list byte)) (fid : Z) : list byte :=
  default [] (fs !! fid).

(** [file.Write(p)] on a file opened with [O_APPEND]: number of bytes written
    and error. *)
Definition file_Write (fid : Z) (p : list byte) (w : World) : (nat * option error) * World :=
  let '(o, w) := next_outcome w in
  match o with
  | Succeed =>
      ((length p, None),
       {| files := alter (λ c, c ++ p) fid (files w); oracle := oracle w |})
  | Fail n =>
      ((length (take n p), Some (ErrOS "write")),
       {| files := alter (λ c, c ++ take n p) fid (files w); oracle := oracle w |})
  end.

(** [file.Sync()] *)
Definition file_Sync (w : World) : option error * World :=
  let '(o, w) := next_outcome w in
  match o with
  | Succeed => (None, w)
  | Fail _ => (Some (ErrOS "fsync"), w)
  end.

(** ** The buffered writer ([bufio.Writer] of the Go library, default size)

    [w_buf] are the bytes accepted and not yet written to the file, [w_err]
    the error the writer keeps once a write to the file has failed. *)

Definition defaultBufSize : nat := 4096.

Record Writer := {
  w_buf : list byte;
  w_err : option error;
}.

Definition Writer_Available (b : Writer) : nat := defaultBufSize - length (w_buf b).

(** [b.Flush()] *)
Definition Writer_Flush (fid : Z) (b : Writer) (w : World) : (Writer * option error) * World :=
  match w_err b with
  | Some e => ((b, Some e), w)
  | None =>
      match w_buf b with
      | [] => ((b, None), w)
      | _ =>
          let '((n, err), w) := file_Write fid (w_buf b) w in
          match err with
          | Some e => (({| w_buf := drop n (w_buf b); w_err := Some e |}, Some e), w)
          | None => (({| w_buf := []; w_err := None |}, None), w)
          end
      end
  end.

(** The loop of [b.Write(p)]: while [p] does not fit and there is no error,
    either write [p] to the file directly (empty buffer) or fill the buffer
    and flush it.  It runs at most twice: after a flush the buffer is empty,
    and a direct write takes all of [p] (lemma [Writer_Write_loop_fuel]). *)
Fixpoint Writer_Write_loop (fuel : nat) (fid : Z) (b : Writer) (p : list byte) (w : World)
  : (Writer * list byte) * World :=
  match fuel with
  | O => ((b, p), w)
  | S fuel =>
      if bool_decide (Writer_Available b < length p)%nat && bool_decide (w_err b = None) then
        match w_buf b with
        | [] =>
            let '((n, err), w) := file_Write fid p w in
            Writer_Write_loop fuel fid {| w_buf := []; w_err := err |} (drop n p) w
        | _ =>
            let n := Writer_Available b in
            let '((b, _), w) :=
              Writer_Flush fid {| w_buf := w_buf b ++ take n p; w_err := w_err b |} w in
            Writer_Write_loop fuel fid b (drop n p) w
        end
      else ((b, p), w)
  end.

(** [b.Write(p)]; only the error is used by the callers. *)
Definition Writer_Write (fid : Z) (b : Writer) (p : list byte) (w : World)
  : (Writer * option error) * World :=
  let '((b, p), w) := Writer_Write_loop 2 fid b p w in
  match w_err b with
  | Some e => ((b, Some e), w)
  | None => (({| w_buf := w_buf b ++ p; w_err := None |}, None), w)
  end.

(** ** Log files (logfile.go) *)

Record LogFile := {
  lf_id : Z;             (* uint32; also names the underlying file *)
  lf_writer : Writer;    (* only used when the file is not read-only *)
  lf_size : Z;           (* int64 *)
  lf_readOnly : bool;
}.

Definition with_writer (lf : LogFile) (b : Writer) : LogFile :=
  {| lf_id := lf_id lf; lf_writer := b; lf_size := lf_size lf;
     lf_readOnly := lf_readOnly lf |}.

Definition with_size (lf : LogFile) (n : Z) : LogFile :=
  {| lf_id := lf_id lf; lf_writer := lf_writer lf; lf_size := n;
     lf_readOnly := lf_readOnly lf |}.

(** [NewLogFile(path, id, readOnly)].  Opening for reading needs the file to
    exist; opening with [O_CREATE|O_RDWR|O_APPEND] creates it when it is
    missing.  The size is the one [Stat] reports. *)
Definition NewLogFile (id : Z) (readOnly : bool) (w : World) : result LogFile * World :=
  let open_error := ErrWrap "failed to open log file" (ErrOS "open") in
  if readOnly then
    match files w !! id with
    | None => (Err open_error, w)
    | Some c =>
        (Ok {| lf_id := id; lf_writer := {| w_buf := []; w_err := None |};
               lf_size := len c; lf_readOnly := true |}, w)
    end
  else
    let '(o, w) := next_outcome w in
    match o with
    | Fail _ => (Err open_error, w)
    | Succeed =>
        let fs := match files w !! id with
                  | None => <[id := []]> (files w)
                  | Some _ => files w
                  end in
        (Ok {| lf_id := id; lf_writer := {| w_buf := []; w_err := None |};
               lf_size := len (file_content fs id); lf_readOnly := false |},
         {| files := fs; oracle := oracle w |})
    end.

Definition LogFile_Size (lf : LogFile) : Z := lf_size lf.
Definition LogFile_ID (lf : LogFile) : Z := lf_id lf.

(** [lf.Sync()] *)
Definition LogFile_Sync (lf : LogFile) (w : World) : (LogFile * option error) * World :=
  if lf_readOnly lf then ((lf, None), w) else
  let '((b, err), w) := Writer_Flush (lf_id lf) (lf_writer lf) w in
  let lf := with_writer lf b in
  match err with
  | Some e => ((lf, Some e), w)
  | None => let '(err, w) := file_Sync w in ((lf, err), w)
  end.

(** [lf.Flush()] *)
Definition LogFile_Flush (lf : LogFile) (w : World) : (LogFile * option error) * World :=
  if lf_readOnly lf then ((lf, None), w) else
  let '((b, err), w) := Writer_Flush (lf_id lf) (lf_writer lf) w in
  ((with_writer lf b, err), w).

(** [lf.Close()]: flushes a writable file; closing the handle itself leaves
    the disk as it is. *)
Definition LogFile_Close (lf : LogFile) (w : World) : (LogFile * option error) * World :=
  if negb (lf_readOnly lf) then
    let '((b, err), w) := Writer_Flush (lf_id lf) (lf_writer lf) w in
    ((with_writer lf b, err), w)
  else ((lf, None), w).

(** [lf.Write(entry)]: five writes to the buffered writer, then the position
    of the value and the new size. *)
Definition LogFile_Write (lf : LogFile) (entry : LogEntry) (w : World)
  : (LogFile * result Z) * World :=
  if lf_readOnly lf then ((lf, Err (ErrMsg "cannot write to read-only file")), w) else
  let entrySize := 4 + 4 + 4 + len (le_Key entry) + len (le_Value entry) in
  let fid := lf_id lf in
  let '((b, err), w) := Writer_Write fid (lf_writer lf) (PutUint32 (le_Timestamp entry)) w in
  match err with Some e => ((with_writer lf b, Err e), w) | None =>
  let '((b, err), w) := Writer_Write fid b (PutUint32 (le_KeySize entry)) w in
  match err with Some e => ((with_writer lf b, Err e), w) | None =>
  let '((b, err), w) := Writer_Write fid b (PutUint32 (le_ValueSize entry)) w in
  match err with Some e => ((with_writer lf b, Err e), w) | None =>
  let '((b, err), w) := Writer_Write fid b (le_Key entry) w in
  match err with Some e => ((with_writer lf b, Err e), w) | None =>
  let '((b, err), w) := Writer_Write fid b (le_Value entry) w in
  match err with Some e => ((with_writer lf b, Err e), w) | None =>
  let valuePos := lf_size lf + 12 + len (le_Key entry) in
  let lf := with_size (with_writer lf b) (lf_size lf + entrySize) in
  ((lf, Ok valuePos), w)
  end end end end end.

(** [file.ReadAt(buf, off)] with [len(buf) = n]: an empty buffer reads
    nothing; otherwise all [n] bytes must be in the file. *)
Definition file_ReadAt (content : list byte) (off : Z) (n : nat) : result (list byte) :=
  if off <? 0 then Err (ErrOS "readat") else
  match n with
  | O => Ok []
  | _ => if len content <? off + Z.of_nat n then Err EOF
         else Ok (take n (drop (Z.to_nat off) content))
  end.

(** [lf.Read(valuePos, valueSize)] *)
Definition LogFile_Read (fs : gmap Z (list byte)) (lf : LogFile) (valuePos valueSize : Z)
  : result (list byte) :=
  match file_ReadAt (file_content fs (lf_id lf)) valuePos (Z.to_nat valueSize) with
  | Err e => Err (ErrWrap "failed to read value at position" e)
  | Ok value => Ok value
  end.

(** [lf.ReadEntry(pos)] *)
Definition LogFile_ReadEntry (fs : gmap Z (list byte)) (lf : LogFile) (pos : Z)
  : result (LogEntry * Z) :=
  ReadEntry (file_content fs (lf_id lf)) pos.

(** ** Configuration (package config) *)

Record Config := {
  MaxFileSize : Z;          (* int64 *)
  SyncWrites : bool;
  CompactionInterval : Z;   (* time.Duration, nanoseconds; not used by the engine *)
}.

Definition DefaultConfig : Config :=
  {| MaxFileSize := 1024 * 1024 * 1024; SyncWrites := false;
     CompactionInterval := 60 * 1000000000 * 10 |}.

(** ** The engine (bitcask.go) *)

Record KeyDirEntry := {
  FileID : Z;       (* uint32 *)
  ValueSize : Z;    (* uint32 *)
  ValuePos : Z;     (* uint64 *)
  Timestamp : Z;    (* uint32 *)
}.

(** The engine after [Open]: [activeFile] is set.  [readOnlyFiles] holds the
    log files by value: a log file reached through this map is only read
    ([Read], which goes to the file on disk under its id) or closed. *)
Record Bitcask := {
  keyDir : gmap string KeyDirEntry;
  activeFile : LogFile;
  readOnlyFiles : gmap Z LogFile;
  config : Config;
}.

Definition with_keyDir (bc : Bitcask) (kd : gmap string KeyDirEntry) : Bitcask :=
  {| keyDir := kd; activeFile := activeFile bc;
     readOnlyFiles := readOnlyFiles bc; config := config bc |}.

Definition with_activeFile (bc : Bitcask) (lf : LogFile) : Bitcask :=
  {| keyDir := keyDir bc; activeFile := lf;
     readOnlyFiles := readOnlyFiles bc; config := config bc |}.

Definition with_readOnlyFiles (bc : Bitcask) (ro : gmap Z LogFile) : Bitcask :=
  {| keyDir := keyDir bc; activeFile := activeFile bc;
     readOnlyFiles := ro; config := config bc |}.

(** One record applied to the key directory, as in the loop of
    [rebuildKeyDir]: a record of value size 0 deletes its key, any other
    sets the entry to the value inside the record at [pos]. *)
Definition applyEntry (id : Z) (pos : Z) (entry : LogEntry)
    (kd : gmap string KeyDirEntry) : gmap string KeyDirEntry :=
  let key := String.string_of_list_byte (le_Key entry) in
  if le_ValueSize entry =? 0 then delete key kd
  else
    let valuePos := pos + 12 + le_KeySize entry in
    <[key := {| FileID := id; ValueSize := le_ValueSize entry;
                ValuePos := valuePos; Timestamp := le_Timestamp entry |}]> kd.

Definition out_of_fuel : error := ErrMsg "rebuildKeyDir: out of fuel".

(** The loop of [rebuildKeyDir] on the file [content] of segment [id].  The
    recursion is on [fuel]; every decoded record is at least 12 bytes long,
    so [S (length content)] iterations are never used up
    (lemma [rebuildKeyDir_loop_fuel]). *)
Fixpoint rebuildKeyDir_loop (fuel : nat) (content : list byte) (id : Z) (pos : Z)
    (kd : gmap string KeyDirEntry) : result (gmap string KeyDirEntry) :=
  match fuel with
  | O => Err out_of_fuel
  | S fuel =>
      match ReadEntry content pos with
      | Err err => if String.eqb (Error err) "EOF" then Ok kd else Err err
      | Ok (entry, nextPos) =>
          rebuildKeyDir_loop fuel content id nextPos (applyEntry id pos entry kd)
      end
  end.

(** [bc.rebuildKeyDir(logFile)] *)
Definition rebuildKeyDir (fs : gmap Z (list byte)) (logFile : LogFile)
    (kd : gmap string KeyDirEntry) : result (gmap string KeyDirEntry) :=
  let content := file_content fs (lf_id logFile) in
  rebuildKeyDir_loop (S (length content)) content (LogFile_ID logFile) 0 kd.

(** The ids of the segment files of the directory, ascending: the names
    [%010d.bitcask] that [ParseUint(_, 10, 32)] accepts, sorted. *)
Definition fileIDs (fs : gmap Z (list byte)) : list Z :=
  merge_sort Z.le (filter (λ id, 0 ≤ id < 2 ^ 32) (elements (dom fs))).

(** The second loop of [loadFiles]: open each file read-only, record it and
    replay it. *)
Fixpoint loadFiles_loop (ids : list Z) (w : World)
    (kd : gmap string KeyDirEntry) (ro : gmap Z LogFile)
  : result (gmap string KeyDirEntry * gmap Z LogFile) :=
  match ids with
  | [] => Ok (kd, ro)
  | id :: ids =>
      match fst (NewLogFile id true w) with
      | Err err => Err err
      | Ok logFile =>
          let ro := <[id := logFile]> ro in
          match rebuildKeyDir (files w) logFile kd with
          | Err err => Err err
          | Ok kd => loadFiles_loop ids w kd ro
          end
      end
  end.

(** [bc.loadFiles()] on the fresh engine of [Open]. *)
Definition loadFiles (w : World) : result (gmap string KeyDirEntry * gmap Z LogFile) :=
  loadFiles_loop (fileIDs (files w)) w ∅ ∅.

(** The greatest id of [readOnlyFiles], 0 when there is none. *)
Definition maxID (ro : gmap Z LogFile) : Z :=
  map_fold (λ id _ maxID, if maxID <? id then id else maxID) 0 ro.

(** [bc.createActiveFile()]: the new active file. *)
Definition createActiveFile (ro : gmap Z LogFile) (w : World) : result LogFile * World :=
  let nextID := u32 (maxID ro + 1) in
  NewLogFile nextID false w.

(** [Open(path, cfg)] *)
Definition Open (cfg : option Config) (w : World) : result Bitcask * World :=
  let cfg := default DefaultConfig cfg in
  match loadFiles w with
  | Err err => (Err (ErrWrap "failed to load existing files" err), w)
  | Ok (kd, ro) =>
      let '(r, w) := createActiveFile ro w in
      match r with
      | Err err => (Err (ErrWrap "failed to create active file" err), w)
      | Ok lf =>
          (Ok {| keyDir := kd; activeFile := lf; readOnlyFiles := ro; config := cfg |}, w)
      end
  end.

(** [bc.rotateActiveFile()] *)
Definition rotateActiveFile (bc : Bitcask) (w : World) : (Bitcask * option error) * World :=
  let '((lf, err), w) := LogFile_Sync (activeFile bc) w in
  let bc := with_activeFile bc lf in
  match err with
  | Some e => ((bc, Some e), w)
  | None =>
      let bc := with_readOnlyFiles bc
                  (<[LogFile_ID (activeFile bc) := activeFile bc]> (readOnlyFiles bc)) in
      let '(r, w) := createActiveFile (readOnlyFiles bc) w in
      match r with
      | Err e => ((bc, Some e), w)
      | Ok lf => ((with_activeFile bc lf, None), w)
      end
  end.

(** [bc.Keys()]; the order of the keys is the map's. *)
Definition Keys (bc : Bitcask) : list string := (map_to_list (keyDir bc)).*1.

(** The closing of the read-only files in [Close], in the order of the map,
    up to the first error. *)
Fixpoint Close_loop (lfs : list LogFile) (w : World) : option error * World :=
  match lfs with
  | [] => (None, w)
  | lf :: lfs =>
      let '((_, err), w) := LogFile_Close lf w in
      match err with
      | Some e => (Some (ErrWrap "failed to close read-only file" e), w)
      | None => Close_loop lfs w
      end
  end.

(** [bc.Close()] *)
Definition Close (bc : Bitcask) (w : World) : option error * World :=
  let '((_, err), w) := LogFile_Close (activeFile bc) w in
  match err with
  | Some e => (Some (ErrWrap "failed to close active file" e), w)
  | None => Close_loop ((map_to_list (readOnlyFiles bc)).*2) w
  end.

(** ** The operations (operations.go) *)

(** The end of [Put] and [Delete]: sync if configured, otherwise flush. *)
Definition sync_or_flush (bc : Bitcask) (w : World) : (Bitcask * option error) * World :=
  if SyncWrites (config bc) then
    let '((lf, err), w) := LogFile_Sync (activeFile bc) w in
    ((with_activeFile bc lf, option_map (ErrWrap "failed to sync") err), w)
  else
    let '((lf, err), w) := LogFile_Flush (activeFile bc) w in
    ((with_activeFile bc lf, option_map (ErrWrap "failed to flush") err), w).

(** [bc.Put(key, value)]; [now] is [time.Now().Unix()]. *)
Definition Put (now : Z) (key : string) (value : list byte) (bc : Bitcask) (w : World)
  : (Bitcask * option error) * World :=
  let '((bc, err), w) :=
    if MaxFileSize (config bc) <=? LogFile_Size (activeFile bc)
    then rotateActiveFile bc w else ((bc, None), w) in
  match err with
  | Some e => ((bc, Some (ErrWrap "failed to rotate active file" e)), w)
  | None =>
      let entry := {| le_Timestamp := u32 now;
                      le_KeySize := u32 (len (String.list_byte_of_string key));
                      le_ValueSize := u32 (len value);
                      le_Key := String.list_byte_of_string key;
                      le_Value := value |} in
      let '((lf, r), w) := LogFile_Write (activeFile bc) entry w in
      let bc := with_activeFile bc lf in
      match r with
      | Err e => ((bc, Some (ErrWrap "failed to write entry" e)), w)
      | Ok valuePos =>
          let '((bc, err), w) := sync_or_flush bc w in
          match err with
          | Some e => ((bc, Some e), w)
          | None =>
              let kd := <[key := {| FileID := LogFile_ID (activeFile bc);
                                    ValueSize := le_ValueSize entry;
                                    ValuePos := valuePos;
                                    Timestamp := le_Timestamp entry |}]> (keyDir bc) in
              ((with_keyDir bc kd, None), w)
          end
      end
  end.

Definition key_not_found (key : string) : error := ErrMsg ("key not found: " +:+ key).

(** [bc.Get(key)] *)
Definition Get (key : string) (bc : Bitcask) (fs : gmap Z (list byte)) : result (list byte) :=
  match keyDir bc !! key with
  | None => Err (key_not_found key)
  | Some keyDirEntry =>
      logFile ←
        (if bool_decide (FileID keyDirEntry = LogFile_ID (activeFile bc))
         then Ok (activeFile bc)
         else match readOnlyFiles bc !! FileID keyDirEntry with
              | None => Err (ErrMsg "log file not found for file ID")
              | Some lf => Ok lf
              end);
      match LogFile_Read fs logFile (ValuePos keyDirEntry) (ValueSize keyDirEntry) with
      | Err e => Err (ErrWrap "failed to read value" e)
      | Ok value => Ok value
      end
  end.

(** [bc.Delete(key)] *)
Definition Delete (now : Z) (key : string) (bc : Bitcask) (w : World)
  : (Bitcask * option error) * World :=
  match keyDir bc !! key with
  | None => ((bc, Some (key_not_found key)), w)
  | Some _ =>
      let entry := {| le_Timestamp := u32 now;
                      le_KeySize := u32 (len (String.list_byte_of_string key));
                      le_ValueSize := 0;
                      le_Key := String.list_byte_of_string key;
                      le_Value := [] |} in
      let '((lf, r), w) := LogFile_Write (activeFile bc) entry w in
      let bc := with_activeFile bc lf in
      match r with
      | Err e => ((bc, Some (ErrWrap "failed to write tombstone" e)), w)
      | Ok _ =>
          let '((bc, err), w) := sync_or_flush bc w in
          match err with
          | Some e => ((bc, Some e), w)
          | None => ((with_keyDir bc (delete key (keyDir bc)), None), w)
          end
      end
  end.

(** [bc.Sync()] *)
Definition Sync (bc : Bitcask) (w : World) : (Bitcask * option error) * World :=
  let '((lf, err), w) := LogFile_Sync (activeFile bc) w in
  ((with_activeFile bc lf, err), w).

(** ** Predicates used by the specifications *)

(** The only change of the disk from [fs] to [fs'] is that [x] was appended
    to the file [fid] (no change at all if the file does not exist). *)
Definition appends (fid : Z) (x : list byte) (fs fs' : gmap Z (list byte)) : Prop :=
  fs' = alter (λ c, c ++ x) fid fs.

(** A log file whose writer has kept no error has nothing buffered between
    two operations, its file exists and its tracked size is the length of
    the file. *)
Definition writer_ok (lf : LogFile) (fs : gmap Z (list byte)) : Prop :=
  w_err (lf_writer lf) = None →
  w_buf (lf_writer lf) = [] ∧ is_Some (fs !! lf_id lf) ∧
  lf_size lf = len (file_content fs (lf_id lf)).

(** What [Flush], [Sync] and [Close] of a log file guarantee: the buffered
    bytes [x] that reached the file, and, if the writer is without error
    afterwards, that it was so before and that all of its buffer is now in
    the file. *)
Definition flush_post (lf : LogFile) (fs : gmap Z (list byte))
    (lf' : LogFile) (fs' : gmap Z (list byte)) (err : option error) : Prop :=
  ∃ x, appends (lf_id lf) x fs fs' ∧
    lf_id lf' = lf_id lf ∧ lf_size lf' = lf_size lf ∧ lf_readOnly lf' = lf_readOnly lf ∧
    (w_err (lf_writer lf') = None →
       w_err (lf_writer lf) = None ∧
       (lf_readOnly lf = false → x = w_buf (lf_writer lf) ∧ w_buf (lf_writer lf') = [])) ∧
    (lf_readOnly lf = true → lf' = lf ∧ x = []) ∧
    (lf_readOnly lf = false → err = None → w_err (lf_writer lf') = None).

(** What [Write] of a writable log file guarantees. *)
Definition write_post (lf : LogFile) (entry : LogEntry) (fs : gmap Z (list byte))
    (lf' : LogFile) (fs' : gmap Z (list byte)) (r : result Z) : Prop :=
  ∃ x, appends (lf_id lf) x fs fs' ∧
    lf_id lf' = lf_id lf ∧ lf_readOnly lf' = lf_readOnly lf ∧
    match r with
    | Ok valuePos =>
        w_err (lf_writer lf) = None ∧ w_err (lf_writer lf') = None ∧
        x ++ w_buf (lf_writer lf') = w_buf (lf_writer lf) ++ encode entry ∧
        valuePos = lf_size lf + 12 + len (le_Key entry) ∧
        lf_size lf' = lf_size lf + 12 + len (le_Key entry) + len (le_Value entry)
    | Err _ => w_err (lf_writer lf') ≠ None ∧ lf_size lf' = lf_size lf
    end.

(** Every log file of [readOnlyFiles] is filed under its own id. *)
Definition ro_ids_ok (bc : Bitcask) : Prop :=
  ∀ id lf, readOnlyFiles bc !! id = Some lf → lf_id lf = id.

(** [Get] finds a log file for the segment [id]. *)
Definition resolves (bc : Bitcask) (id : Z) : Prop :=
  id = lf_id (activeFile bc) ∨ is_Some (readOnlyFiles bc !! id).

(** The engine between two operations. *)
Definition engine_ok (bc : Bitcask) (fs : gmap Z (list byte)) : Prop :=
  lf_readOnly (activeFile bc) = false ∧ writer_ok (activeFile bc) fs ∧ ro_ids_ok bc.

(** Files are only created and appended to. *)
Definition grows (fs fs' : gmap Z (list byte)) : Prop :=
  ∀ j, (is_Some (fs !! j) → is_Some (fs' !! j)) ∧
       ∃ y, file_content fs' j = file_content fs j ++ y.

(** What every operation preserves. *)
Definition step_post (bc : Bitcask) (fs : gmap Z (list byte))
    (bc' : Bitcask) (fs' : gmap Z (list byte)) : Prop :=
  engine_ok bc' fs' ∧ config bc' = config bc ∧ grows fs fs' ∧
  (∀ id, resolves bc id → resolves bc' id).

(** The file [id] is there, created empty if it was missing. *)
Definition created (id : Z) (fs : gmap Z (list byte)) : gmap Z (list byte) :=
  match fs !! id with
  | None => <[id := []]> fs
  | Some _ => fs
  end.

Definition clean_writer : Writer := {| w_buf := []; w_err := None |}.

(** The engine answers [Get] as the map [m] from keys to values does. *)
Definition agree (bc : Bitcask) (fs : gmap Z (list byte)) (m : gmap string (list byte)) : Prop :=
  ∀ k, Get k bc fs = match m !! k with
                     | Some v => Ok v
                     | None => Err (key_not_found k)
                     end.

(** [[]byte(s)] *)
Definition bytes (s : string) : list byte := String.list_byte_of_string s.

(** The record [Put] builds and the tombstone [Delete] builds. *)
Definition putEntry (now : Z) (key : string) (value : list byte) : LogEntry :=
  {| le_Timestamp := u32 now;
     le_KeySize := u32 (len (String.list_byte_of_string key));
     le_ValueSize := u32 (len value);
     le_Key := String.list_byte_of_string key;
     le_Value := value |}.

Definition tombstone (now : Z) (key : string) : LogEntry :=
  {| le_Timestamp := u32 now;
     le_KeySize := u32 (len (String.list_byte_of_string key));
     le_ValueSize := 0;
     le_Key := String.list_byte_of_string key;
     le_Value := [] |}.

(** The entry [Put] installs for a record that starts at [pos] in the
    segment [id]. *)
Definition entryAt (id pos : Z) (entry : LogEntry) : KeyDirEntry :=
  {| FileID := id; ValueSize := le_ValueSize entry;
     ValuePos := pos + 12 + len (le_Key entry); Timestamp := le_Timestamp entry |}.

(** [Put] or [Delete] has appended [entry] to the active file and flushed
    it: the file has grown by the encoded record and the active log file is
    clean again. *)
Definition appended_record (bc : Bitcask) (fs : gmap Z (list byte)) (entry : LogEntry)
    (bc' : Bitcask) (fs' : gmap Z (list byte)) : Prop :=
  let aid := lf_id (activeFile bc) in
  appends aid (encode entry) fs fs' ∧ is_Some (fs !! aid) ∧
  lf_size (activeFile bc) = len (file_content fs aid) ∧
  readOnlyFiles bc' = readOnlyFiles bc ∧ config bc' = config bc ∧
  lf_id (activeFile bc') = aid ∧ lf_readOnly (activeFile bc') = false ∧
  w_err (lf_writer (activeFile bc')) = None ∧ w_buf (lf_writer (activeFile bc')) = [] ∧
  lf_size (activeFile bc') = len (file_content fs' aid).

(** The first step of [Put]: rotation when the active file has reached the
    size limit. *)
Definition rotate_if_full (bc : Bitcask) (w : World) : (Bitcask * option error) * World :=
  if MaxFileSize (config bc) <=? LogFile_Size (activeFile bc)
  then rotateActiveFile bc w else ((bc, None), w).

(** The value a key directory entry designates can be read. *)
Definition entry_readable (fs : gmap Z (list byte)) (e : KeyDirEntry) : Prop :=
  ∃ v, file_ReadAt (file_content fs (FileID e)) (ValuePos e) (Z.to_nat (ValueSize e)) = Ok v.

(** The map from keys to values that the engine holds: for every entry the
    bytes it designates. *)
Definition contents (bc : Bitcask) (fs : gmap Z (list byte)) : gmap string (list byte) :=
  omap (λ e, match file_ReadAt (file_content fs (FileID e)) (ValuePos e)
                     (Z.to_nat (ValueSize e)) with
             | Ok v => Some v
             | Err _ => None
             end) (keyDir bc).

(** Every entry of the key directory can be resolved to a log file and
    read. *)
Definition readable (bc : Bitcask) (fs : gmap Z (list byte)) : Prop :=
  ∀ k e, keyDir bc !! k = Some e → resolves bc (FileID e) ∧ entry_readable fs e.

(** The read-only log file [NewLogFile] returns for a file with the
    contents [c]. *)
Definition readOnlyLogFile (id : Z) (c : list byte) : LogFile :=
  {| lf_id := id; lf_writer := clean_writer; lf_size := len c; lf_readOnly := true |}.

(** ** Runs of the engine *)

Inductive op :=
| OpPut (now : Z) (key : string) (value : list byte)
| OpDelete (now : Z) (key : string)
| OpSync.

Definition run_op (o : op) (bc : Bitcask) (w : World) : (Bitcask * option error) * World :=
  match o with
  | OpPut now key value => Put now key value bc w
  | OpDelete now key => Delete now key bc w
  | OpSync => Sync bc w
  end.

(** The same operation on a map from keys to values; an operation that
    returned an error leaves the map as it was. *)
Definition model_step (o : op) (err : option error) (m : gmap string (list byte))
  : gmap string (list byte) :=
  match err, o with
  | None, OpPut _ key value => <[key := value]> m
  | None, OpDelete _ key => delete key m
  | _, _ => m
  end.

(** The length of a value fits the 32 bits of the record's size field. *)
Definition value_fits (o : op) : Prop :=
  match o with
  | OpPut _ _ value => len value < 2 ^ 32
  | _ => True
  end.

(** The states of an engine: [Open] on any directory, then any operations,
    each with any faults of the operating system.  The third component is
    the map of the values put and not deleted since, starting from the
    contents found by [Open]. *)
Inductive reachable : Bitcask → gmap Z (list byte) → gmap string (list byte) → Prop :=
| reachable_Open cfg w bc w' :
    Open cfg w = (Ok bc, w') →
    reachable bc (files w') (contents bc (files w'))
| reachable_step bc fs m o faults bc' err w' :
    reachable bc fs m → value_fits o →
    run_op o bc {| files := fs; oracle := faults |} = ((bc', err), w') →
    reachable bc' (files w') (model_step o err m).

(** ** Logs *)

(** The contents of a segment that holds exactly the records [rs]. *)
Definition encodeAll (rs : list LogEntry) : list byte := concat (map encode rs).

(** The records [rs], found from [pos] on in the segment [id], applied to a
    key directory in the order of the log. *)
Fixpoint replay (id pos : Z) (rs : list LogEntry) (kd : gmap string KeyDirEntry)
  : gmap string KeyDirEntry :=
  match rs with
  | [] => kd
  | r :: rs => replay id (pos + len (encode r)) rs (applyEntry id pos r kd)
  end.

(** The first [n] bytes of the record [e] end on a boundary between two of
    its fields: after a header word or after the key. *)
Definition on_field_boundary (e : LogEntry) (n : nat) : bool :=
  bool_decide (n = 4 ∨ n = 8 ∨ n = 12 ∨ n = 12 + length (le_Key e))%nat.

(** The greatest id among the segments of the engine, active or read-only:
    what [createActiveFile] computes during a rotation. *)
Definition max_segment_id (bc : Bitcask) : Z :=
  maxID (<[lf_id (activeFile bc) := activeFile bc]> (readOnlyFiles bc)).

(** A file that holds whole records and nothing else. *)
Definition clean_log (c : list byte) : Prop :=
  ∃ rs, Forall wf_entry rs ∧ c = encodeAll rs.

(** A log file with nothing buffered and no error kept. *)
Definition clean_file (lf : LogFile) : Prop :=
  w_err (lf_writer lf) = None ∧ w_buf (lf_writer lf) = [].

(** The engine and the directory of a database that was written without
    faults: the active file is the last segment of the directory, it holds
    whole records, all that was written is in the files, and replaying the
    directory gives the key directory [kd]. *)
Record log_inv (bc : Bitcask) (fs : gmap Z (list byte)) (kd : gmap string KeyDirEntry)
  : Prop := {
  li_readOnly : lf_readOnly (activeFile bc) = false;
  li_clean : clean_file (activeFile bc);
  li_size : lf_size (activeFile bc) = len (file_content fs (lf_id (activeFile bc)));
  li_last : ∃ init, fileIDs fs = init ++ [lf_id (activeFile bc)];
  li_ro : ∀ id lf, readOnlyFiles bc !! id = Some lf →
            lf_id lf = id ∧ clean_file lf ∧ id ∈ fileIDs fs;
  li_log : clean_log (file_content fs (lf_id (activeFile bc)));
  li_replay : ∃ ro, loadFiles {| files := fs; oracle := [] |} = Ok (kd, ro);
}.

(** ** Databases written without faults *)

(** The record of the operation fits the format, and a value that is put is
    not empty. *)
Definition op_fits (o : op) : Prop :=
  match o with
  | OpPut _ key value => len (bytes key) < 2 ^ 32 ∧ 0 < len value < 2 ^ 32
  | OpDelete _ key => len (bytes key) < 2 ^ 32
  | OpSync => True
  end.

(** The states of an engine on a directory that started empty and has only
    seen operations that returned without error, with closing and reopening
    in between; segment ids stay below the largest 32-bit number. *)
Inductive written : Bitcask → gmap Z (list byte) → Prop :=
| written_Open cfg faults bc w' :
    Open cfg {| files := ∅; oracle := faults |} = (Ok bc, w') →
    written bc (files w')
| written_step bc fs o faults bc' w' :
    written bc fs → op_fits o → lf_id (activeFile bc) < 2 ^ 32 - 1 →
    run_op o bc {| files := fs; oracle := faults |} = ((bc', None), w') →
    written bc' (files w')
| written_reopen bc fs faults w1 cfg faults' bc' w' :
    written bc fs → lf_id (activeFile bc) < 2 ^ 32 - 1 →
    Close bc {| files := fs; oracle := faults |} = (None, w1) →
    Open cfg {| files := files w1; oracle := faults' |} = (Ok bc', w') →
    written bc' (files w').

(** ** A small database used in the examples *)

Definition ex_cfg : Config :=
  {| MaxFileSize := 40; SyncWrites := false; CompactionInterval := 0 |}.

Definition ex_w0 : World := {| files := ∅; oracle := [] |}.

(** The engine [Open] returns on the empty directory *)
Definition ex_bc0 : Bitcask :=
  {| keyDir := ∅;
     activeFile := {| lf_id := 1; lf_writer := clean_writer; lf_size := 0;
                      lf_readOnly := false |};
     readOnlyFiles := ∅; config := ex_cfg |}.

Definition ex_fs0 : gmap Z (list byte) := {[ 1 := [] ]}.

(** and the state after [Put("dog", "v1")] at time 100. *)
Definition ex_put1 : (Bitcask * option error) * World :=
  Eval vm_compute in Put 100 "dog" (bytes "v1") ex_bc0 {| files := ex_fs0; oracle := [] |}.

Definition ex_bc1 : Bitcask := ex_put1.1.1.
Definition ex_fs1 : gmap Z (list byte) := files ex_put1.2.

(** [Put("cat", "v2")], then the two keys deleted, then a third put. *)
Definition ex_put2 : (Bitcask * option error) * World :=
  Eval vm_compute in Put 101 "cat" (bytes "v2") ex_bc1 {| files := ex_fs1; oracle := [] |}.
Definition ex_bc2 : Bitcask := ex_put2.1.1.

Definition ex_del3 : (Bitcask * option error) * World :=
  Eval vm_compute in Delete 102 "dog" ex_bc2 ex_put2.2.
Definition ex_bc3 : Bitcask := ex_del3.1.1.

Definition ex_del4 : (Bitcask * option error) * World :=
  Eval vm_compute in Delete 103 "cat" ex_bc3 ex_del3.2.
Definition ex_bc4 : Bitcask := ex_del4.1.1.

Definition ex_put5 : (Bitcask * option error) * World :=
  Eval vm_compute in Put 104 "owl" (bytes "v3") ex_bc4 ex_del4.2.
Definition ex_bc5 : Bitcask := ex_put5.1.1.

(** A [Put] whose flush fails after 3 bytes have reached the file. *)
Definition ex_put_fail : (Bitcask * option error) * World :=
  Eval vm_compute in
    Put 101 "cat" (bytes "v2") ex_bc1 {| files := ex_fs1; oracle := [Fail 3] |}.

(** A tombstone for the empty key. *)
Definition ex_tombstone : LogEntry := tombstone 7 String.EmptyString.

(** ** Example directories for recovery *)

(** A segment with one whole record followed by the first [n] bytes of a
    second one. *)
Definition ex_truncated (n : nat) : World :=
  {| files := {[ 1 := encode (putEntry 1 "a" (bytes "b"))
                      ++ take n (encode (putEntry 2 "c" (bytes "d"))) ]};
     oracle := [] |}.

(** A [Put] of the empty value on a fresh database, then [Close] and [Open]. *)
Definition ex_empty_put : (Bitcask * option error) * World :=
  Eval vm_compute in Put 100 "k" [] ex_bc0 {| files := ex_fs0; oracle := [] |}.

Definition ex_empty_reopen : result Bitcask * World :=
  Eval vm_compute in Open (Some ex_cfg) (Close ex_empty_put.1.1 ex_empty_put.2).2.

(** ** Rotation *)

(** Every segment file of the directory belongs to the engine. *)
Definition segments_known (bc : Bitcask) (fs : gmap Z (list byte)) : Prop :=
  ∀ j, is_Some (fs !! j) → 0 ≤ j < 2 ^ 32 →
       j = lf_id (activeFile bc) ∨ is_Some (readOnlyFiles bc !! j).

(** The files one operation can touch: the active file, and the segment
    after the greatest one if the operation rotates. *)
Definition touch (bc : Bitcask) (fs : gmap Z (list byte))
    (bc' : Bitcask) (fs' : gmap Z (list byte)) : Prop :=
  let next := u32 (max_segment_id bc + 1) in
  (lf_id (activeFile bc') = lf_id (activeFile bc) ∨ lf_id (activeFile bc') = next) ∧
  (∀ j, j ≠ lf_id (activeFile bc) → j ≠ next → fs' !! j = fs !! j) ∧
  (∀ j, is_Some (fs' !! j) →
        is_Some (fs !! j) ∨ (j = next ∧ lf_id (activeFile bc') = next)) ∧
  (∀ j, is_Some (readOnlyFiles bc' !! j) →
        is_Some (readOnlyFiles bc !! j) ∨ j = lf_id (activeFile bc)).

(** Operations one after the other from a state of the engine, each with any
    faults, as long as the segment ids have room below [2^32 - 1]. *)
Inductive runs (bc : Bitcask) (fs : gmap Z (list byte))
  : Bitcask → gmap Z (list byte) → Prop :=
| runs_refl : runs bc fs bc fs
| runs_step bc1 fs1 o faults bc2 err w2 :
    runs bc fs bc1 fs1 → max_segment_id bc1 < 2 ^ 32 - 1 →
    run_op o bc1 {| files := fs1; oracle := faults |} = ((bc2, err), w2) →
    runs bc fs bc2 (files w2).
(** * Verification *)

(** ** Codec lemmas *)

Lemma Z_of_byte_of_Z z : Z_of_byte (byte_of_Z z) = z mod 256.
Proof.
  unfold Z_of_byte, byte_of_Z.
  assert (Hr : 0 ≤ z mod 256 < 256) by (apply Z.mod_pos_bound; lia).
  destruct (Byte.of_N (Z.to_N (z mod 256))) as [b|] eqn:Hb; simpl.
  - apply Byte.to_of_N in Hb. rewrite Hb. lia.
  - apply Byte.of_N_None_iff in Hb. lia.
Qed.

Lemma Uint32_PutUint32 v : 0 ≤ v < 2 ^ 32 → Uint32 (PutUint32 v) = v.
Proof.
  intros Hv. unfold Uint32, PutUint32. rewrite !Z_of_byte_of_Z.
  change 256 with (2 ^ 8). apply Z.bits_inj'. intros n Hn.
  assert (Hhi : 32 ≤ n → Z.testbit v n = false).
  { intros. destruct (Z.eq_dec v 0) as [->|]; [apply Z.testbit_0_l|].
    apply Z.bits_above_log2; [lia|]. apply Z.log2_lt_pow2; [lia|].
    apply Z.lt_le_trans with (2 ^ 32); [lia|]. apply Z.pow_le_mono_r; lia. }
  assert (Hsh : ∀ k, 0 ≤ k → Z.testbit ((v ≫ k) mod 2 ^ 8) (n - k)
                 = (k <=? n) && (n <? k + 8) && Z.testbit v n).
  { intros k Hk. destruct (Z.leb_spec k n).
    - rewrite Z.testbit_mod_pow2, Z.shiftr_spec by lia.
      replace (n - k + k) with n by lia.
      destruct (Z.ltb_spec (n - k) 8), (Z.ltb_spec n (k + 8)); simpl; (done || lia).
    - by rewrite Z.testbit_neg_r by lia. }
  rewrite !Z.lor_spec, !Z.shiftl_spec, !Hsh by lia.
  rewrite Z.testbit_mod_pow2 by lia.
  destruct (Z.ltb_spec n 8), (Z.leb_spec 8 n), (Z.ltb_spec n (8 + 8)),
    (Z.leb_spec 16 n), (Z.ltb_spec n (16 + 8)), (Z.leb_spec 24 n),
    (Z.ltb_spec n (24 + 8)); simpl; rewrite ?orb_false_r; try done; try lia.
  symmetry. apply Hhi. lia.
Qed.

Lemma PutUint32_length v : length (PutUint32 v) = 4%nat.
Proof. done. Qed.

Lemma io_ReadFull_app (bs rest : list byte) :
  io_ReadFull (bs ++ rest) (length bs) = Ok (bs, rest).
Proof.
  unfold io_ReadFull. destruct bs as [|b bs]; [done|].
  change (length (b :: bs)) with (S (length bs)).
  change ((b :: bs) ++ rest) with (b :: (bs ++ rest)).
  destruct (Nat.ltb_spec (length (b :: bs ++ rest)) (S (length bs))) as [Hlt|_].
  - simpl in Hlt. rewrite length_app in Hlt. lia.
  - change (b :: bs ++ rest) with ((b :: bs) ++ rest).
    change (S (length bs)) with (length (b :: bs)).
    by rewrite take_app_length, drop_app_length.
Qed.

Lemma binary_Read_u32_app v rest :
  0 ≤ v < 2 ^ 32 → binary_Read_u32 (PutUint32 v ++ rest) = Ok (v, rest).
Proof.
  intros Hv. unfold binary_Read_u32.
  pose proof (io_ReadFull_app (PutUint32 v) rest) as H.
  rewrite PutUint32_length in H. rewrite H. cbn [mbind result_bind].
  by rewrite Uint32_PutUint32.
Qed.

Lemma encode_length e :
  len (encode e) = 12 + len (le_Key e) + len (le_Value e).
Proof. unfold len, encode. rewrite !length_app, !PutUint32_length. lia. Qed.

(** Decoding at the offset where a record was encoded gives the record
    back, whatever precedes and follows it in the file. *)
Lemma ReadEntry_encode pre e post :
  wf_entry e →
  ReadEntry (pre ++ encode e ++ post) (len pre)
  = Ok (e, len pre + 12 + len (le_Key e) + len (le_Value e)).
Proof.
  intros (Hts & Hks & Hvs & Hkl & Hvl). unfold ReadEntry, len in *.
  destruct (Z.ltb_spec (Z.of_nat (length pre)) 0); [lia|].
  rewrite Nat2Z.id, drop_app_length. unfold encode. rewrite <- !app_assoc.
  rewrite binary_Read_u32_app by done. cbn [mbind result_bind].
  rewrite binary_Read_u32_app by lia. cbn [mbind result_bind].
  rewrite binary_Read_u32_app by lia. cbn [mbind result_bind].
  rewrite Hks, Hvs, !Nat2Z.id.
  rewrite io_ReadFull_app. cbn [mbind result_bind].
  rewrite io_ReadFull_app. cbn [mbind result_bind].
  rewrite <- Hks, <- Hvs. by destruct e.
Qed.


(** ** The file and the buffered writer *)

Lemma appends_nil fid fs : appends fid [] fs fs.
Proof.
  unfold appends. apply map_eq. intros i. destruct (decide (fid = i)) as [->|Hne].
  - rewrite lookup_alter_eq. destruct (fs !! i); simpl; by rewrite ?app_nil_r.
  - by rewrite lookup_alter_ne.
Qed.

Lemma appends_trans fid x y fs1 fs2 fs3 :
  appends fid x fs1 fs2 → appends fid y fs2 fs3 → appends fid (x ++ y) fs1 fs3.
Proof.
  unfold appends. intros -> ->. apply map_eq. intros i.
  destruct (decide (fid = i)) as [->|Hne].
  - rewrite !lookup_alter_eq. destruct (fs1 !! i); simpl; by rewrite ?app_assoc.
  - by rewrite !lookup_alter_ne.
Qed.

Lemma appends_lookup fid x fs fs' :
  appends fid x fs fs' → fs' !! fid = (λ c, c ++ x) <$> fs !! fid.
Proof. unfold appends. intros ->. by rewrite lookup_alter_eq. Qed.

Lemma appends_content fid x fs fs' :
  appends fid x fs fs' → is_Some (fs !! fid) →
  file_content fs' fid = file_content fs fid ++ x.
Proof.
  intros H [c Hc]. unfold file_content.
  by rewrite (appends_lookup _ _ _ _ H), Hc.
Qed.

Lemma appends_lookup_ne fid x fs fs' j :
  appends fid x fs fs' → j ≠ fid → fs' !! j = fs !! j.
Proof. unfold appends. intros -> Hne. by rewrite lookup_alter_ne. Qed.

Lemma appends_is_Some fid x fs fs' j :
  appends fid x fs fs' → is_Some (fs' !! j) ↔ is_Some (fs !! j).
Proof.
  intros H. destruct (decide (j = fid)) as [->|Hne].
  - by rewrite (appends_lookup _ _ _ _ H), fmap_is_Some.
  - by rewrite (appends_lookup_ne _ _ _ _ _ H Hne).
Qed.

Lemma appends_dom fid x fs fs' : appends fid x fs fs' → dom fs' = dom fs.
Proof.
  intros H. apply set_eq. intros j. rewrite !elem_of_dom. by eapply appends_is_Some.
Qed.

(** Whatever is appended, a file keeps its old contents as a prefix. *)
Lemma appends_prefix fid x fs fs' j :
  appends fid x fs fs' → ∃ y, file_content fs' j = file_content fs j ++ y.
Proof.
  intros H. unfold file_content. destruct (decide (j = fid)) as [->|Hne].
  - rewrite (appends_lookup _ _ _ _ H).
    destruct (fs !! fid); simpl; [by exists x|by exists []].
  - exists []. by rewrite (appends_lookup_ne _ _ _ _ _ H Hne), app_nil_r.
Qed.

Lemma file_Write_spec fid p w n err w' :
  file_Write fid p w = ((n, err), w') →
  ∃ x, appends fid x (files w) (files w') ∧ (err = None → x = p).
Proof.
  unfold file_Write, next_outcome.
  destruct (oracle w) as [|[|k] os]; simpl; intros [= <- <- <-]; simpl;
    eexists; (split; [reflexivity|done]).
Qed.

Lemma Writer_Flush_spec fid b w b' err w' :
  Writer_Flush fid b w = ((b', err), w') →
  ∃ x, appends fid x (files w) (files w') ∧
    (err = None → w_err b = None ∧ x = w_buf b ∧ w_buf b' = [] ∧ w_err b' = None) ∧
    (err ≠ None → w_err b' ≠ None).
Proof.
  unfold Writer_Flush. destruct (w_err b) as [e|] eqn:He.
  { intros [= <- <- <-]. exists []. split; [apply appends_nil|]. by rewrite He. }
  destruct (w_buf b) as [|c buf] eqn:Hb.
  { intros [= <- <- <-]. exists []. split; [apply appends_nil|]. by rewrite He, Hb. }
  destruct (file_Write fid (c :: buf) w) as [[n err'] w1] eqn:Hw.
  apply file_Write_spec in Hw as (x & Hx & Hok).
  destruct err' as [e|]; intros [= <- <- <-]; exists x; simpl.
  - done.
  - split; [done|]. split; [|done]. intros _. by rewrite Hok.
Qed.

Lemma Writer_Write_loop_spec fuel fid b p w b' p' w' :
  Writer_Write_loop fuel fid b p w = ((b', p'), w') →
  ∃ x, appends fid x (files w) (files w') ∧
    (w_err b' = None → w_err b = None ∧ x ++ w_buf b' ++ p' = w_buf b ++ p) ∧
    (w_err b ≠ None → w_err b' ≠ None).
Proof.
  revert b p w. induction fuel as [|fuel IH]; intros b p w; simpl.
  { intros [= <- <- <-]. exists []. split; [apply appends_nil|]. done. }
  destruct (bool_decide (Writer_Available b < length p)%nat && bool_decide (w_err b = None))
    eqn:Hc.
  2: { intros [= <- <- <-]. exists []. split; [apply appends_nil|]. done. }
  apply andb_true_iff in Hc as [_ He%bool_decide_eq_true].
  destruct (w_buf b) as [|c buf] eqn:Hb.
  - destruct (file_Write fid p w) as [[n err] w1] eqn:Hw.
    pose proof Hw as Hw'. apply file_Write_spec in Hw' as (x & Hx & Hok).
    intros Hl. apply IH in Hl as (y & Hy & Hres & Hsticky). simpl in *.
    exists (x ++ y). split; [by eapply appends_trans|]. split; [|by rewrite He].
    intros Hn. destruct (Hres Hn) as [-> Heq]. split; [done|].
    rewrite (Hok eq_refl) in *. simpl in Heq.
    unfold file_Write in Hw. destruct (next_outcome w) as [[|k] w2]; [|done].
    injection Hw as <- _. rewrite drop_all in Heq. rewrite <- app_assoc.
    by rewrite Heq, app_nil_r.
  - destruct (Writer_Flush fid _ w) as [[b1 err] w1] eqn:Hf.
    apply Writer_Flush_spec in Hf as (x & Hx & Hok & Hbad).
    intros Hl. apply IH in Hl as (y & Hy & Hres & Hsticky). simpl in *.
    exists (x ++ y). split; [by eapply appends_trans|]. split; [|by rewrite He].
    intros Hn. destruct (Hres Hn) as [Hb1 Heq]. split; [done|].
    destruct err as [e|].
    { exfalso. by apply Hbad. }
    destruct (Hok eq_refl) as (_ & -> & Hb1' & _). rewrite Hb1' in Heq.
    simpl in Heq.
    trans ((c :: buf) ++ take (Writer_Available b) p ++ (y ++ w_buf b' ++ p')).
    { simpl. by rewrite <- !app_assoc. }
    by rewrite Heq, take_drop.
Qed.

Lemma Writer_Write_spec fid b p w b' err w' :
  Writer_Write fid b p w = ((b', err), w') →
  ∃ x, appends fid x (files w) (files w') ∧
    (err = None → w_err b = None ∧ w_err b' = None ∧ x ++ w_buf b' = w_buf b ++ p) ∧
    (err ≠ None → w_err b' ≠ None).
Proof.
  unfold Writer_Write.
  destruct (Writer_Write_loop 2 fid b p w) as [[b1 p1] w1] eqn:Hl.
  apply Writer_Write_loop_spec in Hl as (x & Hx & Hres & _).
  destruct (w_err b1) as [e|] eqn:He; intros [= <- <- <-]; exists x; simpl.
  - by rewrite He.
  - destruct (Hres eq_refl) as [Hb Heq]. done.
Qed.

(** The loop of [Write] stops by itself: after a direct write nothing is
    left to do, after a flush the buffer is empty, so two iterations are
    all it ever runs and any larger fuel gives the same result. *)
Lemma Writer_Write_loop_direct fuel fid p w n err w1 :
  file_Write fid p w = ((n, err), w1) →
  Writer_Write_loop fuel fid {| w_buf := []; w_err := err |} (drop n p) w1
  = (({| w_buf := []; w_err := err |}, drop n p), w1).
Proof.
  intros Hw. destruct fuel as [|fuel]; [done|]. cbn [Writer_Write_loop w_buf w_err].
  unfold file_Write in Hw. destruct (next_outcome w) as [[|k] w2].
  - injection Hw as <- <- <-. rewrite drop_all. cbn [length].
    rewrite bool_decide_eq_false_2; [done|lia].
  - injection Hw as <- <- <-. by rewrite andb_false_r.
Qed.

Lemma Writer_Write_loop_S fuel fid b p w :
  Writer_Write_loop (S fuel) fid b p w
  = if bool_decide (Writer_Available b < length p)%nat && bool_decide (w_err b = None) then
      match w_buf b with
      | [] =>
          let '((n, err), w) := file_Write fid p w in
          Writer_Write_loop fuel fid {| w_buf := []; w_err := err |} (drop n p) w
      | _ =>
          let n := Writer_Available b in
          let '((b, _), w) :=
            Writer_Flush fid {| w_buf := w_buf b ++ take n p; w_err := w_err b |} w in
          Writer_Write_loop fuel fid b (drop n p) w
      end
    else ((b, p), w).
Proof. done. Qed.

Lemma Writer_Write_loop_fuel k fid b p w :
  Writer_Write_loop (S (S k)) fid b p w = Writer_Write_loop 2 fid b p w.
Proof.
  rewrite (Writer_Write_loop_S (S k)), (Writer_Write_loop_S 1).
  destruct (bool_decide (Writer_Available b < length p)%nat && bool_decide (w_err b = None))
    eqn:Hc; [|done].
  apply andb_true_iff in Hc as [_ He%bool_decide_eq_true].
  destruct (w_buf b) as [|c buf] eqn:Hb.
  - destruct (file_Write fid p w) as [[n err] w1] eqn:Hw.
    by rewrite !(Writer_Write_loop_direct _ _ _ _ _ _ _ Hw).
  - cbn zeta. destruct (Writer_Flush fid _ w) as [[b1 e1] w1] eqn:Hf.
    rewrite (Writer_Write_loop_S k), (Writer_Write_loop_S 0).
    destruct (bool_decide (Writer_Available b1 < _)%nat && bool_decide (w_err b1 = None))
      eqn:Hc1; [|done].
    apply andb_true_iff in Hc1 as [_ He1%bool_decide_eq_true].
    assert (Hb1 : w_buf b1 = []).
    { apply Writer_Flush_spec in Hf as (x & _ & Hok & Hbad).
      destruct e1 as [e1|]; [by destruct Hbad|]. by destruct (Hok eq_refl) as (_ & _ & ? & _). }
    rewrite Hb1. destruct (file_Write fid _ w1) as [[n2 err2] w2] eqn:Hw2.
    by rewrite !(Writer_Write_loop_direct _ _ _ _ _ _ _ Hw2).
Qed.

(** ** Log files *)

Lemma LogFile_Flush_spec lf w lf' err w' :
  LogFile_Flush lf w = ((lf', err), w') →
  flush_post lf (files w) lf' (files w') err.
Proof.
  unfold LogFile_Flush, flush_post. destruct (lf_readOnly lf) eqn:Hro.
  { intros [= <- <- <-]. exists []. split; [apply appends_nil|]. by rewrite Hro. }
  destruct (Writer_Flush _ _ w) as [[b e] w1] eqn:Hf. intros [= <- <- <-].
  apply Writer_Flush_spec in Hf as (x & Hx & Hok & Hbad). exists x. simpl.
  split; [done|]. do 3 (split; [done|]). split; [|split; [done|]].
  - intros Hb. destruct e as [e|]; [by destruct Hbad|].
    destruct (Hok eq_refl) as (? & ? & ? & ?). done.
  - intros _ ->. by destruct (Hok eq_refl) as (? & ? & ? & ?).
Qed.

Lemma LogFile_Close_spec lf w lf' err w' :
  LogFile_Close lf w = ((lf', err), w') →
  flush_post lf (files w) lf' (files w') err.
Proof.
  intros H. apply LogFile_Flush_spec. unfold LogFile_Close in H. unfold LogFile_Flush.
  by destruct (lf_readOnly lf).
Qed.

Lemma file_Sync_files w err w' : file_Sync w = (err, w') → files w' = files w.
Proof.
  unfold file_Sync, next_outcome.
  by destruct (oracle w) as [|[|k] os]; intros [= <- <-].
Qed.

Lemma LogFile_Sync_spec lf w lf' err w' :
  LogFile_Sync lf w = ((lf', err), w') →
  flush_post lf (files w) lf' (files w') err.
Proof.
  unfold LogFile_Sync, flush_post. destruct (lf_readOnly lf) eqn:Hro.
  { intros [= <- <- <-]. exists []. split; [apply appends_nil|]. by rewrite Hro. }
  destruct (Writer_Flush _ _ w) as [[b e] w1] eqn:Hf.
  apply Writer_Flush_spec in Hf as (x & Hx & Hok & Hbad).
  destruct e as [e|].
  - intros [= <- <- <-]. exists x. simpl. split; [done|]. do 3 (split; [done|]).
    split; [|done]. intros Hb. by destruct Hbad.
  - destruct (file_Sync w1) as [e w2] eqn:Hs. intros [= <- <- <-]. exists x. simpl.
    rewrite (file_Sync_files _ _ _ Hs).
    destruct (Hok eq_refl) as (? & ? & ? & ?). done.
Qed.

Lemma LogFile_Write_spec lf entry w lf' r w' :
  lf_readOnly lf = false →
  LogFile_Write lf entry w = ((lf', r), w') →
  write_post lf entry (files w) lf' (files w') r.
Proof.
  intros Hro. unfold LogFile_Write, write_post. rewrite Hro.
  destruct (Writer_Write _ _ _ w) as [[b1 e1] w1] eqn:H1.
  apply Writer_Write_spec in H1 as (x1 & Hx1 & Hok1 & Hbad1).
  destruct e1 as [e1|].
  { intros [= <- <- <-]. exists x1. simpl. do 3 (split; [done|]). split; [|done].
    by apply Hbad1. }
  destruct (Writer_Write _ _ _ w1) as [[b2 e2] w2] eqn:H2.
  apply Writer_Write_spec in H2 as (x2 & Hx2 & Hok2 & Hbad2).
  pose proof (appends_trans _ _ _ _ _ _ Hx1 Hx2) as Hx12.
  destruct e2 as [e2|].
  { intros [= <- <- <-]. eexists. simpl. split; [exact Hx12|]. do 2 (split; [done|]).
    split; [|done]. by apply Hbad2. }
  destruct (Writer_Write _ _ _ w2) as [[b3 e3] w3] eqn:H3.
  apply Writer_Write_spec in H3 as (x3 & Hx3 & Hok3 & Hbad3).
  pose proof (appends_trans _ _ _ _ _ _ Hx12 Hx3) as Hx123.
  destruct e3 as [e3|].
  { intros [= <- <- <-]. eexists. simpl. split; [exact Hx123|]. do 2 (split; [done|]).
    split; [|done]. by apply Hbad3. }
  destruct (Writer_Write _ _ _ w3) as [[b4 e4] w4] eqn:H4.
  apply Writer_Write_spec in H4 as (x4 & Hx4 & Hok4 & Hbad4).
  pose proof (appends_trans _ _ _ _ _ _ Hx123 Hx4) as Hx1234.
  destruct e4 as [e4|].
  { intros [= <- <- <-]. eexists. simpl. split; [exact Hx1234|]. do 2 (split; [done|]).
    split; [|done]. by apply Hbad4. }
  destruct (Writer_Write _ _ _ w4) as [[b5 e5] w5] eqn:H5.
  apply Writer_Write_spec in H5 as (x5 & Hx5 & Hok5 & Hbad5).
  pose proof (appends_trans _ _ _ _ _ _ Hx1234 Hx5) as Hx12345.
  destruct e5 as [e5|].
  { intros [= <- <- <-]. eexists. simpl. split; [exact Hx12345|]. do 2 (split; [done|]).
    split; [|done]. by apply Hbad5. }
  intros [= <- <- <-]. eexists. simpl. split; [exact Hx12345|]. do 2 (split; [done|]).
  destruct (Hok1 eq_refl) as (E0 & _ & E1), (Hok2 eq_refl) as (_ & _ & E2),
    (Hok3 eq_refl) as (_ & _ & E3), (Hok4 eq_refl) as (_ & _ & E4),
    (Hok5 eq_refl) as (_ & E5' & E5).
  split; [done|]. split; [done|]. split; [|split; [done|lia]].
  unfold encode. rewrite <- !app_assoc.
  rewrite E5, (app_assoc x4), E4, <- !app_assoc, (app_assoc x3), E3, <- !app_assoc,
    (app_assoc x2), E2, <- !app_assoc, (app_assoc x1), E1, <- !app_assoc. done.
Qed.

Lemma grows_refl fs : grows fs fs.
Proof. intros j. split; [done|]. exists []. by rewrite app_nil_r. Qed.

Lemma grows_trans fs1 fs2 fs3 : grows fs1 fs2 → grows fs2 fs3 → grows fs1 fs3.
Proof.
  intros H12 H23 j. destruct (H12 j) as [Ha [y Hy]], (H23 j) as [Hb [z Hz]].
  split; [auto|]. exists (y ++ z). by rewrite Hz, Hy, app_assoc.
Qed.

Lemma appends_grows fid x fs fs' : appends fid x fs fs' → grows fs fs'.
Proof.
  intros H j. split; [by rewrite (appends_is_Some _ _ _ _ j H)|].
  by eapply appends_prefix.
Qed.

Lemma created_grows id fs : grows fs (created id fs).
Proof.
  unfold created. destruct (fs !! id) eqn:Hid; [apply grows_refl|].
  intros j. destruct (decide (j = id)) as [->|Hne].
  - split; [by rewrite lookup_insert_eq|]. exists [].
    unfold file_content. by rewrite lookup_insert_eq, Hid.
  - split; [by rewrite lookup_insert_ne|]. exists [].
    unfold file_content. by rewrite lookup_insert_ne, app_nil_r.
Qed.

Lemma created_lookup id fs : created id fs !! id = Some (file_content fs id).
Proof.
  unfold created, file_content. destruct (fs !! id) eqn:Hid; simpl; [done|].
  by rewrite lookup_insert_eq.
Qed.

Lemma created_lookup_ne id fs j : j ≠ id → created id fs !! j = fs !! j.
Proof.
  intros Hne. unfold created. destruct (fs !! id); [done|]. by rewrite lookup_insert_ne.
Qed.

Lemma NewLogFile_rw_spec id w r w' :
  NewLogFile id false w = (r, w') →
  match r with
  | Ok lf =>
      lf = {| lf_id := id; lf_writer := clean_writer;
              lf_size := len (file_content (files w) id); lf_readOnly := false |} ∧
      files w' = created id (files w)
  | Err _ => files w' = files w
  end.
Proof.
  unfold NewLogFile, next_outcome.
  destruct (oracle w) as [|[|k] os]; intros [= <- <-]; simpl; try done.
  all: unfold created, file_content; destruct (files w !! id) eqn:Hid; simpl;
    rewrite ?Hid, ?lookup_insert_eq; done.
Qed.

Lemma NewLogFile_ro_spec id w :
  NewLogFile id true w =
  (match files w !! id with
   | None => Err (ErrWrap "failed to open log file" (ErrOS "open"))
   | Some c => Ok {| lf_id := id; lf_writer := clean_writer;
                     lf_size := len c; lf_readOnly := true |}
   end, w).
Proof. unfold NewLogFile. by destruct (files w !! id). Qed.

(** ** The engine between operations *)

Lemma flush_post_writer_ok lf fs lf' fs' err :
  flush_post lf fs lf' fs' err → writer_ok lf fs → writer_ok lf' fs'.
Proof.
  intros (x & Hx & Hid & Hsz & Hro & Hclean & Hsame & _) Hok Herr.
  destruct (Hclean Herr) as [Herr0 Hflush].
  destruct (Hok Herr0) as (Hbuf & Hex & Hlen).
  destruct (lf_readOnly lf) eqn:Hr.
  - destruct (Hsame eq_refl) as [-> ->]. rewrite Hbuf.
    assert (fs' = fs) as -> by (by rewrite Hx; symmetry; apply appends_nil). done.
  - destruct (Hflush eq_refl) as [-> Hb']. rewrite Hbuf in Hx.
    assert (fs' = fs) as -> by (by rewrite Hx; symmetry; apply appends_nil).
    rewrite Hid, Hsz. done.
Qed.

Lemma flush_post_grows lf fs lf' fs' err : flush_post lf fs lf' fs' err → grows fs fs'.
Proof. intros (x & Hx & _). by eapply appends_grows. Qed.

(** A record written and flushed: the file has grown by exactly the
    record, and the tracked size has followed. *)
Lemma write_flush_ok lf entry fs lf1 fs1 vp lf2 fs2 err :
  lf_readOnly lf = false → writer_ok lf fs →
  write_post lf entry fs lf1 fs1 (Ok vp) →
  flush_post lf1 fs1 lf2 fs2 err →
  w_err (lf_writer lf2) = None →
  appends (lf_id lf) (encode entry) fs fs2 ∧ w_buf (lf_writer lf2) = [] ∧
  lf_size lf = len (file_content fs (lf_id lf)) ∧ is_Some (fs !! lf_id lf) ∧
  lf_size lf2 = len (file_content fs2 (lf_id lf)) ∧ lf_id lf2 = lf_id lf ∧
  lf_readOnly lf2 = false.
Proof.
  intros Hro Hok (x & Hx & Hid1 & Hro1 & He0 & He1 & Hbuf & Hvp & Hsz1)
    (y & Hy & Hid2 & Hsz2 & Hro2 & Hclean & _ & _) He2.
  destruct (Hok He0) as (Hb0 & Hex & Hlen).
  destruct (Hclean He2) as [_ Hfl]. rewrite Hro1, Hro in Hfl.
  destruct (Hfl eq_refl) as [-> Hb2]. rewrite Hb0 in Hbuf. simpl in Hbuf.
  rewrite Hid1 in Hy. pose proof (appends_trans _ _ _ _ _ _ Hx Hy) as Hxy.
  rewrite Hbuf in Hxy. split; [done|]. split; [done|]. split; [done|].
  split; [done|]. split; [|by rewrite Hid2, Hro2, Hro1].
  rewrite (appends_content _ _ _ _ Hxy Hex), Hsz2, Hsz1, Hlen.
  unfold len. rewrite length_app. pose proof (encode_length entry) as Hl.
  unfold len in Hl. lia.
Qed.

Lemma write_post_grows lf entry fs lf' fs' r :
  write_post lf entry fs lf' fs' r → grows fs fs'.
Proof. intros (x & Hx & _). by eapply appends_grows. Qed.

Lemma sync_or_flush_spec bc w bc' err w' :
  sync_or_flush bc w = ((bc', err), w') →
  ∃ lf' e0, bc' = with_activeFile bc lf' ∧
    flush_post (activeFile bc) (files w) lf' (files w') e0 ∧ (err = None → e0 = None).
Proof.
  unfold sync_or_flush. destruct (SyncWrites (config bc)).
  - destruct (LogFile_Sync _ w) as [[lf e0] w1] eqn:Hs. intros [= <- <- <-].
    exists lf, e0. split; [done|]. split; [by apply LogFile_Sync_spec|].
    by destruct e0.
  - destruct (LogFile_Flush _ w) as [[lf e0] w1] eqn:Hs. intros [= <- <- <-].
    exists lf, e0. split; [done|]. split; [by apply LogFile_Flush_spec|].
    by destruct e0.
Qed.

Lemma step_post_refl bc fs : engine_ok bc fs → step_post bc fs bc fs.
Proof. intros H. split; [done|]. split; [done|]. split; [apply grows_refl|done]. Qed.

Lemma step_post_trans bc1 fs1 bc2 fs2 bc3 fs3 :
  step_post bc1 fs1 bc2 fs2 → step_post bc2 fs2 bc3 fs3 → step_post bc1 fs1 bc3 fs3.
Proof.
  intros (_ & Hc1 & Hg1 & Hr1) (Hok & Hc2 & Hg2 & Hr2).
  split; [done|]. split; [congruence|]. split; [by eapply grows_trans|auto].
Qed.

(** Replacing the active file by a flushed or written version of itself. *)
Lemma step_post_active bc fs lf' fs' :
  engine_ok bc fs → lf_id lf' = lf_id (activeFile bc) → lf_readOnly lf' = false →
  writer_ok lf' fs' → grows fs fs' →
  step_post bc fs (with_activeFile bc lf') fs'.
Proof.
  intros (Hro & Hw & Hids) Hid Hro' Hw' Hg.
  split; [done|]. split; [done|]. split; [done|].
  intros id [->|Hin]; [left|right]; simpl; done.
Qed.

Lemma step_post_flush bc fs lf' fs' err :
  engine_ok bc fs → flush_post (activeFile bc) fs lf' fs' err →
  step_post bc fs (with_activeFile bc lf') fs'.
Proof.
  intros Hok Hf. pose proof Hf as (x & _ & Hid & _ & Hro & _).
  pose proof Hok as (Hro0 & Hw & Hids).
  apply step_post_active; [done|done|congruence| |].
  - by eapply flush_post_writer_ok.
  - by eapply flush_post_grows.
Qed.

Lemma write_post_err_step bc entry fs lf' fs' e :
  engine_ok bc fs → write_post (activeFile bc) entry fs lf' fs' (Err e) →
  step_post bc fs (with_activeFile bc lf') fs'.
Proof.
  intros Hok Hw. pose proof Hw as (x & _ & Hid & Hro & Hbad & _).
  pose proof Hok as (Hro0 & Hw0 & Hids).
  apply step_post_active; [done|done|congruence| |].
  - intros Hn. by destruct (Hbad Hn).
  - by eapply write_post_grows.
Qed.

(** The common end of [Put] and [Delete]: the record is written, then the
    file is synced or flushed. *)
Lemma append_record_spec bc entry w lf1 vp w1 bc2 err w2 :
  engine_ok bc (files w) →
  LogFile_Write (activeFile bc) entry w = ((lf1, Ok vp), w1) →
  sync_or_flush (with_activeFile bc lf1) w1 = ((bc2, err), w2) →
  step_post bc (files w) bc2 (files w2) ∧ keyDir bc2 = keyDir bc ∧
  readOnlyFiles bc2 = readOnlyFiles bc ∧
  lf_id (activeFile bc2) = lf_id (activeFile bc) ∧
  (err = None →
     appends (lf_id (activeFile bc)) (encode entry) (files w) (files w2) ∧
     is_Some (files w !! lf_id (activeFile bc)) ∧
     vp = len (file_content (files w) (lf_id (activeFile bc))) + 12 + len (le_Key entry) ∧
     w_err (lf_writer (activeFile bc2)) = None ∧ w_buf (lf_writer (activeFile bc2)) = [] ∧
     lf_size (activeFile bc2) = len (file_content (files w2) (lf_id (activeFile bc)))).
Proof.
  intros Hok Hw Hs. pose proof Hok as (Hro & Hwok & Hids).
  apply LogFile_Write_spec in Hw; [|done].
  apply sync_or_flush_spec in Hs as (lf2 & e0 & -> & Hf & He0). simpl in Hf.
  pose proof Hw as (x & Hx & Hid1 & Hro1 & He & He1 & Hbuf & Hvp & Hsz1).
  pose proof Hf as (y & Hy & Hid2 & Hsz2 & Hro2 & Hclean & _ & Hfin).
  assert (Hwok2 : writer_ok lf2 (files w2)).
  { intros He2.
    destruct (write_flush_ok _ _ _ _ _ _ _ _ _ Hro Hwok Hw Hf He2)
      as (_ & ? & _ & ? & ? & ? & _).
    split; [done|]. rewrite Hid2, Hid1. split; [|done].
    apply (appends_is_Some _ _ _ _ _ Hy). by apply (appends_is_Some _ _ _ _ _ Hx). }
  change (with_activeFile (with_activeFile bc lf1) lf2) with (with_activeFile bc lf2).
  split; [|split; [done|split; [done|split; [simpl; congruence|]]]].
  - apply step_post_active; [done|congruence|congruence|done|].
    eapply grows_trans; [by eapply write_post_grows|by eapply flush_post_grows].
  - intros ->. simpl. rewrite Hro1, Hro in Hfin.
    pose proof (Hfin eq_refl (He0 eq_refl)) as He2.
    destruct (write_flush_ok _ _ _ _ _ _ _ _ _ Hro Hwok Hw Hf He2)
      as (? & ? & Hlen & ? & ? & ? & _).
    rewrite Hvp, Hlen. done.
Qed.

Lemma NewLogFile_rw_writer_ok id w lf w' :
  NewLogFile id false w = (Ok lf, w') →
  lf_id lf = id ∧ lf_readOnly lf = false ∧ writer_ok lf (files w') ∧
  lf_writer lf = clean_writer ∧ lf_size lf = len (file_content (files w) id) ∧
  files w' = created id (files w).
Proof.
  intros H. apply NewLogFile_rw_spec in H as [-> Hfs]. simpl.
  split; [done|]. split; [done|]. split; [|done].
  intros _. simpl. rewrite Hfs. split; [done|].
  split; [by rewrite created_lookup|].
  unfold file_content at 2. by rewrite created_lookup.
Qed.

Lemma rotateActiveFile_spec bc w bc' err w' :
  engine_ok bc (files w) →
  rotateActiveFile bc w = ((bc', err), w') →
  step_post bc (files w) bc' (files w') ∧ keyDir bc' = keyDir bc.
Proof.
  intros Hok. unfold rotateActiveFile.
  destruct (LogFile_Sync _ w) as [[lf1 e1] w1] eqn:Hs.
  apply LogFile_Sync_spec in Hs.
  pose proof (step_post_flush _ _ _ _ _ Hok Hs) as Hstep1.
  destruct e1 as [e1|]; [by intros [= <- <- <-]|].
  unfold createActiveFile.
  cbn [readOnlyFiles with_readOnlyFiles with_activeFile activeFile LogFile_ID].
  destruct (NewLogFile _ false w1) as [r w2] eqn:Hn.
  destruct Hstep1 as ((Hro1 & Hw1 & Hids1) & Hc1 & Hg1 & Hr1). simpl in *.
  assert (Hids2 : ∀ id lf, <[lf_id lf1 := lf1]> (readOnlyFiles bc) !! id = Some lf
                           → lf_id lf = id).
  { intros id lf. destruct (decide (id = lf_id lf1)) as [->|Hne].
    - rewrite lookup_insert_eq. by intros [= <-].
    - rewrite lookup_insert_ne by done. apply Hids1. }
  destruct r as [lf2|e2]; intros [= <- <- <-]; (split; [|done]).
  - apply NewLogFile_rw_writer_ok in Hn as (Hid2 & Hro2 & Hw2 & _ & _ & Hfs2).
    split; [done|]. split; [done|]. split.
    + eapply grows_trans; [done|]. rewrite Hfs2. apply created_grows.
    + intros id Hres. right. simpl. destruct (decide (id = lf_id lf1)) as [->|Hne].
      * by rewrite lookup_insert_eq.
      * rewrite lookup_insert_ne by done.
        destruct (Hr1 id Hres) as [?|?]; done.
  - apply NewLogFile_rw_spec in Hn. simpl in Hn. rewrite Hn.
    split; [done|]. split; [done|]. split; [done|].
    intros id Hres. destruct (Hr1 id Hres) as [->|Hin]; [by left|right]. simpl.
    destruct (decide (id = lf_id lf1)) as [->|Hne].
    * by rewrite lookup_insert_eq.
    * by rewrite lookup_insert_ne.
Qed.

(** ** Reading values *)

Lemma file_ReadAt_grows c y off n v :
  file_ReadAt c off n = Ok v → file_ReadAt (c ++ y) off n = Ok v.
Proof.
  unfold file_ReadAt. destruct (Z.ltb_spec off 0); [done|].
  destruct n as [|n]; [done|].
  destruct (Z.ltb_spec (len c) (off + Z.of_nat (S n))) as [|Hle]; [done|].
  intros [= <-]. unfold len in *.
  destruct (Z.ltb_spec (Z.of_nat (length (c ++ y))) (off + Z.of_nat (S n))) as [Hlt|_].
  { rewrite length_app in Hlt. lia. }
  f_equal. rewrite drop_app_le by lia. rewrite take_app_le; [done|].
  rewrite length_drop. lia.
Qed.

(** Reading the bytes that follow a prefix of known length. *)
Lemma file_ReadAt_app c v post :
  file_ReadAt (c ++ v ++ post) (len c) (length v) = Ok v.
Proof.
  unfold file_ReadAt, len. destruct (Z.ltb_spec (Z.of_nat (length c)) 0); [lia|].
  destruct v as [|b v]; [done|].
  destruct (Z.ltb_spec (Z.of_nat (length (c ++ (b :: v) ++ post)))
              (Z.of_nat (length c) + Z.of_nat (length (b :: v)))) as [Hlt|_].
  { rewrite !length_app in Hlt. lia. }
  by rewrite Nat2Z.id, drop_app_length, take_app_length.
Qed.

Lemma Get_not_found k bc fs :
  Get k bc fs = Err (key_not_found k) ↔ keyDir bc !! k = None.
Proof.
  unfold Get. destruct (keyDir bc !! k) as [e|]; [|done]. split; [|done].
  case_bool_decide; cbn [mbind result_bind].
  - unfold LogFile_Read. by destruct (file_ReadAt _ _ _).
  - destruct (readOnlyFiles bc !! FileID e); cbn [mbind result_bind]; [|done].
    unfold LogFile_Read. by destruct (file_ReadAt _ _ _).
Qed.

Lemma Get_Ok k bc fs v :
  ro_ids_ok bc →
  Get k bc fs = Ok v ↔
  ∃ e, keyDir bc !! k = Some e ∧ resolves bc (FileID e) ∧
       file_ReadAt (file_content fs (FileID e)) (ValuePos e) (Z.to_nat (ValueSize e)) = Ok v.
Proof.
  intros Hids. unfold Get, resolves.
  destruct (keyDir bc !! k) as [e|]; [|split; [done|by intros (? & ? & _)]].
  split.
  - intros H. exists e. split; [done|]. revert H.
    case_bool_decide as Hd; cbn [mbind result_bind].
    + unfold LogFile_Read, LogFile_ID in *. rewrite <- Hd.
      destruct (file_ReadAt _ _ _); [|done]. intros [= ->]. by split; [left|].
    + destruct (readOnlyFiles bc !! FileID e) as [lf|] eqn:Hlf;
        cbn [mbind result_bind]; [|done].
      unfold LogFile_Read. rewrite (Hids _ _ Hlf).
      destruct (file_ReadAt _ _ _); [|done]. intros [= ->]. split; [by right|done].
  - intros (e' & [= <-] & Hres & Hread).
    case_bool_decide as Hd; cbn [mbind result_bind].
    + unfold LogFile_Read, LogFile_ID in *. by rewrite <- Hd, Hread.
    + destruct Hres as [?|[lf Hlf]]; [done|]. rewrite Hlf. cbn [mbind result_bind].
      unfold LogFile_Read. by rewrite (Hids _ _ Hlf), Hread.
Qed.

(** A value that can be read stays readable, with the same bytes, through
    every operation. *)
Lemma Get_stable bc fs bc' fs' k v :
  engine_ok bc fs → step_post bc fs bc' fs' →
  keyDir bc' !! k = keyDir bc !! k →
  Get k bc fs = Ok v → Get k bc' fs' = Ok v.
Proof.
  intros (_ & _ & Hids) ((_ & _ & Hids') & _ & Hg & Hres) Hk.
  rewrite !Get_Ok by done. intros (e & He & Hr & Hread).
  exists e. split; [congruence|]. split; [auto|].
  destruct (Hg (FileID e)) as [_ [y ->]]. by apply file_ReadAt_grows.
Qed.

Lemma agree_stable bc fs bc' fs' m :
  engine_ok bc fs → step_post bc fs bc' fs' → keyDir bc' = keyDir bc →
  agree bc fs m → agree bc' fs' m.
Proof.
  intros Hok Hstep Hkd Hag k. specialize (Hag k).
  destruct (m !! k) as [v|].
  - eapply Get_stable; [done..|by rewrite Hkd|done].
  - apply Get_not_found. rewrite Hkd. by apply Get_not_found in Hag.
Qed.

Lemma agree_insert bc fs bc' fs' m k e v :
  engine_ok bc fs → step_post bc fs bc' fs' →
  keyDir bc' = <[k := e]> (keyDir bc) → Get k bc' fs' = Ok v →
  agree bc fs m → agree bc' fs' (<[k := v]> m).
Proof.
  intros Hok Hstep Hkd Hget Hag k'. destruct (decide (k' = k)) as [->|Hne].
  { by rewrite lookup_insert_eq. }
  rewrite lookup_insert_ne by done. specialize (Hag k').
  destruct (m !! k') as [v'|].
  - eapply Get_stable; [done..| |done]. by rewrite Hkd, lookup_insert_ne.
  - apply Get_not_found. rewrite Hkd, lookup_insert_ne by done.
    by apply Get_not_found in Hag.
Qed.

Lemma agree_delete bc fs bc' fs' m k :
  engine_ok bc fs → step_post bc fs bc' fs' →
  keyDir bc' = delete k (keyDir bc) →
  agree bc fs m → agree bc' fs' (delete k m).
Proof.
  intros Hok Hstep Hkd Hag k'. destruct (decide (k' = k)) as [->|Hne].
  { rewrite lookup_delete_eq. apply Get_not_found. by rewrite Hkd, lookup_delete_eq. }
  rewrite lookup_delete_ne by done. specialize (Hag k').
  destruct (m !! k') as [v'|].
  - eapply Get_stable; [done..| |done]. by rewrite Hkd, lookup_delete_ne.
  - apply Get_not_found. rewrite Hkd, lookup_delete_ne by done.
    by apply Get_not_found in Hag.
Qed.

(** ** The operations *)

Lemma step_post_with_keyDir bc fs bc' fs' kd :
  step_post bc fs bc' fs' → step_post bc fs (with_keyDir bc' kd) fs'.
Proof. intros ((? & ? & ?) & ? & ? & ?). done. Qed.

Lemma rotate_if_full_spec bc w bc' err w' :
  engine_ok bc (files w) → rotate_if_full bc w = ((bc', err), w') →
  step_post bc (files w) bc' (files w') ∧ keyDir bc' = keyDir bc.
Proof.
  intros Hok. unfold rotate_if_full. case_match.
  - by apply rotateActiveFile_spec.
  - intros [= <- <- <-]. split; [by apply step_post_refl|done].
Qed.

Lemma append_record_ok bc entry w lf1 vp w1 bc2 w2 :
  engine_ok bc (files w) →
  LogFile_Write (activeFile bc) entry w = ((lf1, Ok vp), w1) →
  sync_or_flush (with_activeFile bc lf1) w1 = ((bc2, None), w2) →
  appended_record bc (files w) entry bc2 (files w2) ∧
  vp = len (file_content (files w) (lf_id (activeFile bc))) + 12 + len (le_Key entry).
Proof.
  intros Hok Hw Hs.
  destruct (append_record_spec _ _ _ _ _ _ _ _ _ Hok Hw Hs)
    as (((Hro & _) & Hc & _) & _ & Hro' & Hid & Hfin).
  destruct (Hfin eq_refl) as (? & ? & ? & ? & ? & ?).
  destruct Hok as (Hro0 & Hwok & _). unfold appended_record.
  apply LogFile_Write_spec in Hw as (? & _ & _ & _ & He & _); [|done].
  destruct (Hwok He) as (_ & _ & ?). done.
Qed.

Lemma Put_spec now key value bc w bc' err w' :
  engine_ok bc (files w) →
  Put now key value bc w = ((bc', err), w') →
  step_post bc (files w) bc' (files w') ∧
  match err with
  | Some _ => keyDir bc' = keyDir bc
  | None =>
      ∃ bc1 w1, rotate_if_full bc w = ((bc1, None), w1) ∧ engine_ok bc1 (files w1) ∧
        appended_record bc1 (files w1) (putEntry now key value) bc' (files w') ∧
        keyDir bc' =
          <[key := entryAt (lf_id (activeFile bc1))
                     (len (file_content (files w1) (lf_id (activeFile bc1))))
                     (putEntry now key value)]> (keyDir bc)
  end.
Proof.
  intros Hok. unfold Put. fold (rotate_if_full bc w). fold (putEntry now key value).
  destruct (rotate_if_full bc w) as [[bc1 e1] w1] eqn:Hrot.
  destruct (rotate_if_full_spec _ _ _ _ _ Hok Hrot) as [Hstep1 Hkd1].
  pose proof Hstep1 as (Hok1 & _).
  destruct e1 as [e1|]; [by intros [= <- <- <-]|].
  destruct (LogFile_Write _ _ w1) as [[lf2 r] w2] eqn:Hw.
  destruct r as [vp|e2].
  2: { intros [= <- <- <-]. split; [|done]. eapply step_post_trans; [done|].
       destruct Hok1 as (Hro1 & ?). apply LogFile_Write_spec in Hw; [|done].
       by eapply write_post_err_step. }
  destruct (sync_or_flush _ w2) as [[bc3 e3] w3] eqn:Hs.
  destruct (append_record_spec _ _ _ _ _ _ _ _ _ Hok1 Hw Hs)
    as (Hstep3 & Hkd3 & Hro3 & Hid3 & _).
  destruct e3 as [e3|]; intros [= <- <- <-].
  { split; [by eapply step_post_trans|congruence]. }
  split; [apply step_post_with_keyDir; by eapply step_post_trans|].
  exists bc1, w1. split; [done|]. split; [done|].
  destruct (append_record_ok _ _ _ _ _ _ _ _ Hok1 Hw Hs) as [Happ ->].
  split; [exact Happ|]. cbn [keyDir with_keyDir].
  unfold entryAt, LogFile_ID. rewrite Hid3, Hkd3, Hkd1. done.
Qed.

Lemma Delete_spec now key bc w bc' err w' :
  engine_ok bc (files w) →
  Delete now key bc w = ((bc', err), w') →
  step_post bc (files w) bc' (files w') ∧
  match err with
  | Some _ => keyDir bc' = keyDir bc
  | None =>
      is_Some (keyDir bc !! key) ∧
      appended_record bc (files w) (tombstone now key) bc' (files w') ∧
      keyDir bc' = delete key (keyDir bc)
  end.
Proof.
  intros Hok. unfold Delete. fold (tombstone now key).
  destruct (keyDir bc !! key) as [e|] eqn:Hk.
  2: { intros [= <- <- <-]. split; [by apply step_post_refl|done]. }
  destruct (LogFile_Write _ _ w) as [[lf2 r] w2] eqn:Hw.
  destruct r as [vp|e2].
  2: { intros [= <- <- <-]. split; [|done].
       pose proof Hok as (Hro1 & ?). apply LogFile_Write_spec in Hw; [|done].
       by eapply write_post_err_step. }
  destruct (sync_or_flush _ w2) as [[bc3 e3] w3] eqn:Hs.
  destruct (append_record_spec _ _ _ _ _ _ _ _ _ Hok Hw Hs)
    as (Hstep3 & Hkd3 & Hro3 & Hid3 & _).
  destruct e3 as [e3|]; intros [= <- <- <-].
  { split; [done|congruence]. }
  split; [by apply step_post_with_keyDir|].
  split; [done|].
  destruct (append_record_ok _ _ _ _ _ _ _ _ Hok Hw Hs) as [Happ _].
  split; [exact Happ|]. cbn [keyDir with_keyDir]. by rewrite Hkd3.
Qed.

Lemma Sync_spec bc w bc' err w' :
  engine_ok bc (files w) →
  Sync bc w = ((bc', err), w') →
  step_post bc (files w) bc' (files w') ∧ keyDir bc' = keyDir bc.
Proof.
  intros Hok. unfold Sync. destruct (LogFile_Sync _ w) as [[lf e] w1] eqn:Hs.
  intros [= <- <- <-]. apply LogFile_Sync_spec in Hs.
  split; [by eapply step_post_flush|done].
Qed.

Lemma Put_Get now key value bc w bc' w' :
  engine_ok bc (files w) → len value < 2 ^ 32 →
  Put now key value bc w = ((bc', None), w') →
  Get key bc' (files w') = Ok value.
Proof.
  intros Hok Hlen HPut.
  destruct (Put_spec _ _ _ _ _ _ _ _ Hok HPut) as [Hstep (bc1 & w1 & _ & Hok1 & Happ & Hkd)].
  destruct Hstep as ((_ & _ & Hids') & _).
  destruct Happ as (Happ & Hex & _ & _ & _ & Hid & _).
  apply Get_Ok; [done|]. eexists. split; [by rewrite Hkd, lookup_insert_eq|].
  cbn [entryAt FileID ValuePos ValueSize putEntry le_ValueSize le_Key].
  split; [by left|].
  rewrite (appends_content _ _ _ _ Happ Hex). unfold encode.
  cbn [putEntry le_Timestamp le_KeySize le_ValueSize le_Key le_Value].
  set (c := file_content (files w1) (lf_id (activeFile bc1))).
  set (kb := String.list_byte_of_string key).
  replace (c ++ PutUint32 (u32 now) ++ PutUint32 (u32 (len kb))
             ++ PutUint32 (u32 (len value)) ++ kb ++ value)
    with ((c ++ PutUint32 (u32 now) ++ PutUint32 (u32 (len kb))
             ++ PutUint32 (u32 (len value)) ++ kb) ++ value ++ [])
    by (by rewrite app_nil_r, <- !app_assoc).
  replace (len c + 12 + len kb)
    with (len (c ++ PutUint32 (u32 now) ++ PutUint32 (u32 (len kb))
                 ++ PutUint32 (u32 (len value)) ++ kb))
    by (unfold len; rewrite !length_app, !PutUint32_length; lia).
  replace (Z.to_nat (u32 (len value))) with (length value).
  { apply file_ReadAt_app. }
  unfold u32, len in *. rewrite Z.mod_small by lia. lia.
Qed.

(** ** Decoding: what a decoded record says about the file *)

Lemma io_ReadFull_Ok r n bs r' :
  io_ReadFull r n = Ok (bs, r') → r = bs ++ r' ∧ length bs = n.
Proof.
  unfold io_ReadFull. destruct n as [|n]; [by intros [= <- <-]|].
  destruct r as [|b r]; [done|].
  destruct (Nat.ltb_spec (length (b :: r)) (S n)); [done|].
  intros [= <- <-]. split; [symmetry; apply (take_drop (S n) (b :: r))|].
  change (length (take (S n) (b :: r)) = S n). rewrite length_take. lia.
Qed.

Lemma Z_of_byte_range b : 0 ≤ Z_of_byte b < 256.
Proof. unfold Z_of_byte. pose proof (Byte.to_N_bounded b). lia. Qed.

Lemma Uint32_nonneg bs : 0 ≤ Uint32 bs.
Proof.
  unfold Uint32. destruct bs as [|b0 [|b1 [|b2 [|b3 [|]]]]]; try lia.
  pose proof (Z_of_byte_range b0). pose proof (Z_of_byte_range b1).
  pose proof (Z_of_byte_range b2). pose proof (Z_of_byte_range b3).
  repeat (apply Z.lor_nonneg; split); try apply Z.shiftl_nonneg; lia.
Qed.

Lemma binary_Read_u32_Ok r v r' :
  binary_Read_u32 r = Ok (v, r') →
  ∃ bs, r = bs ++ r' ∧ length bs = 4%nat ∧ v = Uint32 bs ∧ 0 ≤ v.
Proof.
  unfold binary_Read_u32. destruct (io_ReadFull r 4) as [[bs r1]|] eqn:H; [|done].
  cbn [mbind result_bind]. intros [= <- <-].
  apply io_ReadFull_Ok in H as [-> Hl]. exists bs.
  split; [done|]. split; [done|]. split; [done|apply Uint32_nonneg].
Qed.

(** A decoded record lies entirely inside the file, at the position given. *)
Lemma ReadEntry_Ok content pos entry nextPos :
  ReadEntry content pos = Ok (entry, nextPos) →
  0 ≤ pos ∧ 0 ≤ le_KeySize entry ∧ 0 ≤ le_ValueSize entry ∧
  nextPos = pos + 12 + le_KeySize entry + le_ValueSize entry ∧
  len (le_Key entry) = le_KeySize entry ∧ len (le_Value entry) = le_ValueSize entry ∧
  ∃ hdr rest, length hdr = 12%nat ∧
    content = take (Z.to_nat pos) content ++ hdr ++ le_Key entry ++ le_Value entry ++ rest ∧
    len (take (Z.to_nat pos) content) = pos.
Proof.
  unfold ReadEntry. destruct (Z.ltb_spec pos 0); [done|].
  destruct (binary_Read_u32 _) as [[ts r1]|] eqn:H1; [|done]. cbn [mbind result_bind].
  destruct (binary_Read_u32 r1) as [[ks r2]|] eqn:H2; [|done]. cbn [mbind result_bind].
  destruct (binary_Read_u32 r2) as [[vs r3]|] eqn:H3; [|done]. cbn [mbind result_bind].
  destruct (io_ReadFull r3 _) as [[key r4]|] eqn:H4; [|done]. cbn [mbind result_bind].
  destruct (io_ReadFull r4 _) as [[value r5]|] eqn:H5; [|done]. cbn [mbind result_bind].
  intros [= <- <-]. simpl.
  apply binary_Read_u32_Ok in H1 as (b1 & Hd & Hl1 & _ & _).
  apply binary_Read_u32_Ok in H2 as (b2 & -> & Hl2 & _ & Hks).
  apply binary_Read_u32_Ok in H3 as (b3 & -> & Hl3 & _ & Hvs).
  apply io_ReadFull_Ok in H4 as [-> Hl4]. apply io_ReadFull_Ok in H5 as [-> Hl5].
  do 4 (split; [done|]). unfold len. split; [lia|]. split; [lia|].
  exists (b1 ++ b2 ++ b3), r5. split; [rewrite !length_app; lia|].
  assert (Hpos : (Z.to_nat pos ≤ length content)%nat).
  { destruct (decide (Z.to_nat pos ≤ length content)%nat) as [|Hgt]; [done|].
    rewrite drop_ge in Hd by lia. by destruct b1. }
  split; [|rewrite length_take; lia].
  rewrite <- !app_assoc, <- Hd. by rewrite take_drop.
Qed.

Lemma ReadEntry_Ok_readable content pos entry nextPos :
  ReadEntry content pos = Ok (entry, nextPos) →
  file_ReadAt content (pos + 12 + le_KeySize entry) (Z.to_nat (le_ValueSize entry))
  = Ok (le_Value entry) ∧ nextPos ≤ len content ∧ pos + 12 ≤ nextPos.
Proof.
  intros H. apply ReadEntry_Ok in H
    as (Hpos & Hks & Hvs & -> & Hkl & Hvl & hdr & rest & Hh & Hc & Hp).
  split; [|split; [|lia]].
  - rewrite Hc at 1.
    replace (take (Z.to_nat pos) content ++ hdr ++ le_Key entry ++ le_Value entry ++ rest)
      with ((take (Z.to_nat pos) content ++ hdr ++ le_Key entry) ++ le_Value entry ++ rest)
      by (by rewrite <- !app_assoc).
    replace (pos + 12 + le_KeySize entry)
      with (len (take (Z.to_nat pos) content ++ hdr ++ le_Key entry)).
    2: { unfold len in *. rewrite !length_app. lia. }
    replace (Z.to_nat (le_ValueSize entry)) with (length (le_Value entry))
      by (unfold len in *; lia).
    apply file_ReadAt_app.
  - rewrite Hc at 1. unfold len in *. rewrite !length_app. lia.
Qed.

(** ** Replay: invariants of [rebuildKeyDir] and [loadFiles] *)

Lemma rebuildKeyDir_loop_inv (P : gmap string KeyDirEntry → Prop) fuel content id pos kd kd' :
  (∀ pos kd entry nextPos, P kd → ReadEntry content pos = Ok (entry, nextPos) →
     P (applyEntry id pos entry kd)) →
  P kd → rebuildKeyDir_loop fuel content id pos kd = Ok kd' → P kd'.
Proof.
  intros Hstep. revert pos kd. induction fuel as [|fuel IH]; intros pos kd HP; simpl; [done|].
  destruct (ReadEntry content pos) as [[entry nextPos]|err] eqn:Hr.
  - apply IH. by eapply Hstep.
  - destruct (String.eqb _ _); [|done]. by intros [= <-].
Qed.

Lemma ReadEntry_Err content pos err :
  ReadEntry content pos = Err err → err = EOF ∨ err = ErrUnexpectedEOF ∨ err = ErrOS "seek".
Proof.
  assert (Hfull : ∀ r n e, io_ReadFull r n = Err e → e = EOF ∨ e = ErrUnexpectedEOF).
  { intros r n e. unfold io_ReadFull. destruct n; [done|]. destruct r; [intros [= <-]; by left|].
    destruct (_ <? _)%nat; [intros [= <-]; by right|done]. }
  assert (Hbin : ∀ r e, binary_Read_u32 r = Err e → e = EOF ∨ e = ErrUnexpectedEOF).
  { intros r e. unfold binary_Read_u32.
    destruct (io_ReadFull r 4) as [[??]|e'] eqn:H; cbn [mbind result_bind]; [done|].
    intros [= <-]. by eapply Hfull. }
  unfold ReadEntry. destruct (pos <? 0); [intros [= <-]; auto|].
  destruct (binary_Read_u32 _) as [[ts r1]|e] eqn:H1; cbn [mbind result_bind];
    [|intros [= <-]; destruct (Hbin _ _ H1); auto].
  destruct (binary_Read_u32 r1) as [[ks r2]|e] eqn:H2; cbn [mbind result_bind];
    [|intros [= <-]; destruct (Hbin _ _ H2); auto].
  destruct (binary_Read_u32 r2) as [[vs r3]|e] eqn:H3; cbn [mbind result_bind];
    [|intros [= <-]; destruct (Hbin _ _ H3); auto].
  destruct (io_ReadFull r3 _) as [[key r4]|e] eqn:H4; cbn [mbind result_bind];
    [|intros [= <-]; destruct (Hfull _ _ _ H4); auto].
  destruct (io_ReadFull r4 _) as [[value r5]|e] eqn:H5; cbn [mbind result_bind];
    [done|intros [= <-]; destruct (Hfull _ _ _ H5); auto].
Qed.

(** The loop of [rebuildKeyDir] never runs out of fuel: with more fuel than
    bytes left, the result is that of any larger fuel and is not the
    out-of-fuel error. *)
Lemma rebuildKeyDir_loop_fuel fuel fuel' content id pos kd :
  0 ≤ pos ≤ len content →
  len content - pos < Z.of_nat fuel → len content - pos < Z.of_nat fuel' →
  rebuildKeyDir_loop fuel content id pos kd = rebuildKeyDir_loop fuel' content id pos kd ∧
  rebuildKeyDir_loop fuel content id pos kd ≠ Err out_of_fuel.
Proof.
  revert fuel' pos kd. induction fuel as [|fuel IH]; intros fuel' pos kd Hpos Hf Hf'.
  { exfalso. simpl in Hf. lia. }
  destruct fuel' as [|fuel'].
  { exfalso. simpl in Hf'. lia. }
  simpl. destruct (ReadEntry content pos) as [[entry nextPos]|err] eqn:Hr.
  - destruct (ReadEntry_Ok_readable _ _ _ _ Hr) as (_ & Hle & Hge).
    apply IH; lia.
  - split; [done|]. destruct (ReadEntry_Err _ _ _ Hr) as [-> | [-> | ->]]; done.
Qed.

Lemma rebuildKeyDir_total fs lf kd : rebuildKeyDir fs lf kd ≠ Err out_of_fuel.
Proof.
  unfold rebuildKeyDir.
  eapply (rebuildKeyDir_loop_fuel _ (S (length (file_content fs (lf_id lf))))); unfold len; lia.
Qed.

Lemma loadFiles_loop_inv (P : gmap string KeyDirEntry → gmap Z LogFile → Prop)
    ids w kd ro kd' ro' :
  (∀ id c kd ro kd1, P kd ro → files w !! id = Some c → id ∈ ids →
     rebuildKeyDir (files w) (readOnlyLogFile id c) kd = Ok kd1 →
     P kd1 (<[id := readOnlyLogFile id c]> ro)) →
  P kd ro → loadFiles_loop ids w kd ro = Ok (kd', ro') → P kd' ro'.
Proof.
  revert kd ro. induction ids as [|id ids IH]; intros kd ro Hstep HP;
    cbn [loadFiles_loop].
  { by intros [= <- <-]. }
  rewrite NewLogFile_ro_spec. cbn [fst].
  destruct (files w !! id) as [c|] eqn:Hid; [|done].
  fold (readOnlyLogFile id c).
  destruct (rebuildKeyDir _ _ kd) as [kd1|] eqn:Hr; [|done].
  apply IH.
  - intros id' c' kd0 ro0 kd2 HP0 Hid' Hin. apply Hstep; [done..|by right].
  - eapply Hstep; [done..|by left|done].
Qed.

Lemma file_content_created id fs j : file_content (created id fs) j = file_content fs j.
Proof.
  unfold file_content. destruct (decide (j = id)) as [->|Hne].
  - by rewrite created_lookup.
  - by rewrite created_lookup_ne.
Qed.

Lemma applyEntry_lookup id pos entry kd k e :
  applyEntry id pos entry kd !! k = Some e →
  kd !! k = Some e ∨
  (le_ValueSize entry ≠ 0 ∧
   e = {| FileID := id; ValueSize := le_ValueSize entry;
          ValuePos := pos + 12 + le_KeySize entry; Timestamp := le_Timestamp entry |}).
Proof.
  unfold applyEntry. destruct (Z.eqb_spec (le_ValueSize entry) 0) as [Hz|Hz].
  - intros H. left. apply lookup_delete_Some in H as [_ H]. done.
  - intros H. apply lookup_insert_Some in H as [[_ <-]|[_ H]]; [by right|by left].
Qed.

(** What [loadFiles] returns: log files under their ids, and entries that
    designate readable bytes of a loaded file. *)
Lemma loadFiles_spec w kd ro :
  loadFiles w = Ok (kd, ro) →
  (∀ id lf, ro !! id = Some lf → lf_id lf = id) ∧
  (∀ k e, kd !! k = Some e → is_Some (ro !! FileID e) ∧ entry_readable (files w) e).
Proof.
  unfold loadFiles.
  apply (loadFiles_loop_inv (λ kd ro,
    (∀ id lf, ro !! id = Some lf → lf_id lf = id) ∧
    (∀ k e, kd !! k = Some e → is_Some (ro !! FileID e) ∧ entry_readable (files w) e)));
    [|done].
  clear kd ro. intros id c kd ro kd1 [Hids Hkd] Hc _ Hr. split.
  - intros id' lf. destruct (decide (id' = id)) as [->|Hne].
    + rewrite lookup_insert_eq. by intros [= <-].
    + rewrite lookup_insert_ne by done. apply Hids.
  - revert Hr. unfold rebuildKeyDir. cbn [lf_id readOnlyLogFile LogFile_ID].
    apply (rebuildKeyDir_loop_inv (λ kd, ∀ k e, kd !! k = Some e →
      is_Some (<[id := readOnlyLogFile id c]> ro !! FileID e) ∧ entry_readable (files w) e)).
    + intros pos kd0 entry nextPos HP Hread k e He.
      apply applyEntry_lookup in He as [He|[_ ->]]; [by eapply HP|].
      cbn [FileID]. split; [by rewrite lookup_insert_eq|].
      exists (le_Value entry). cbn [FileID ValuePos ValueSize].
      by apply ReadEntry_Ok_readable in Hread as [? _].
    + intros k e He. destruct (Hkd k e He) as [Hin Hre]. split; [|done].
      destruct (decide (FileID e = id)) as [->|Hne].
      * by rewrite lookup_insert_eq.
      * by rewrite lookup_insert_ne.
Qed.

Lemma Open_spec cfg w bc w' :
  Open cfg w = (Ok bc, w') →
  engine_ok bc (files w') ∧ readable bc (files w') ∧
  loadFiles w = Ok (keyDir bc, readOnlyFiles bc) ∧
  activeFile bc = {| lf_id := u32 (maxID (readOnlyFiles bc) + 1); lf_writer := clean_writer;
                     lf_size := len (file_content (files w) (u32 (maxID (readOnlyFiles bc) + 1)));
                     lf_readOnly := false |} ∧
  files w' = created (u32 (maxID (readOnlyFiles bc) + 1)) (files w) ∧
  config bc = default DefaultConfig cfg.
Proof.
  unfold Open. destruct (loadFiles w) as [[kd ro]|] eqn:Hl; [|done].
  unfold createActiveFile. destruct (NewLogFile _ false w) as [[lf|] w1] eqn:Hn; [|done].
  intros [= <- <-]. cbn [keyDir readOnlyFiles activeFile config].
  destruct (loadFiles_spec _ _ _ Hl) as [Hids Hkd].
  pose proof (NewLogFile_rw_spec _ _ _ _ Hn) as [Hlf Hfs].
  apply NewLogFile_rw_writer_ok in Hn as (Hid & Hro & Hw & _ & _ & _).
  split; [done|]. split; [|done].
  intros k e He. destruct (Hkd k e He) as [Hin [v Hv]].
  split; [by right|]. exists v. by rewrite Hfs, file_content_created.
Qed.

Lemma readable_agree bc fs :
  ro_ids_ok bc → readable bc fs → agree bc fs (contents bc fs).
Proof.
  intros Hids Hr k. unfold contents. rewrite lookup_omap.
  destruct (keyDir bc !! k) as [e|] eqn:He; simpl.
  - destruct (Hr k e He) as [Hres [v Hv]]. rewrite Hv.
    apply Get_Ok; [done|]. by exists e.
  - by apply Get_not_found.
Qed.

(** ** Reachable states *)

Lemma run_op_spec o bc w bc' err w' m :
  engine_ok bc (files w) → agree bc (files w) m → value_fits o →
  run_op o bc w = ((bc', err), w') →
  step_post bc (files w) bc' (files w') ∧ agree bc' (files w') (model_step o err m).
Proof.
  intros Hok Hag Hfit. destruct o as [now key value|now key|]; simpl.
  - intros HPut. destruct (Put_spec _ _ _ _ _ _ _ _ Hok HPut) as [Hstep Hres].
    split; [done|]. destruct err as [e|].
    + by eapply agree_stable.
    + destruct Hres as (bc1 & w1 & _ & _ & _ & Hkd).
      eapply agree_insert; [done..|by eapply Put_Get|done].
  - intros HDel. destruct (Delete_spec _ _ _ _ _ _ _ Hok HDel) as [Hstep Hres].
    split; [done|]. destruct err as [e|].
    + by eapply agree_stable.
    + destruct Hres as (_ & _ & Hkd). by eapply agree_delete.
  - intros HSync. destruct (Sync_spec _ _ _ _ _ Hok HSync) as [Hstep Hkd].
    split; [done|]. destruct err; by eapply agree_stable.
Qed.

Lemma reachable_inv bc fs m : reachable bc fs m → engine_ok bc fs ∧ agree bc fs m.
Proof.
  induction 1 as [cfg w bc w' HOpen|bc fs m o faults bc' err w' _ [Hok Hag] Hfit Hrun].
  - apply Open_spec in HOpen as (Hok & Hr & _). split; [done|].
    apply readable_agree; [by destruct Hok as (_ & _ & ?)|done].
  - destruct (run_op_spec o bc {| files := fs; oracle := faults |} _ _ _ m
                Hok Hag Hfit Hrun) as [(Hok' & _) Hag'].
    done.
Qed.

Lemma Keys_elem_of bc k : k ∈ Keys bc ↔ is_Some (keyDir bc !! k).
Proof.
  unfold Keys. rewrite list_elem_of_fmap. split.
  - intros ([k' e] & -> & Hin). apply elem_of_map_to_list in Hin. by exists e.
  - intros [e He]. exists (k, e). split; [done|]. by apply elem_of_map_to_list.
Qed.


Lemma rotateActiveFile_keyDir bc w : keyDir (rotateActiveFile bc w).1.1 = keyDir bc.
Proof.
  unfold rotateActiveFile. destruct (LogFile_Sync _ w) as [[lf e] w1].
  destruct e; [done|]. destruct (createActiveFile _ w1) as [[?|?] ?]; done.
Qed.

Lemma sync_or_flush_keyDir bc w : keyDir (sync_or_flush bc w).1.1 = keyDir bc.
Proof.
  unfold sync_or_flush. destruct (SyncWrites _).
  - by destruct (LogFile_Sync _ w) as [[??]?].
  - by destruct (LogFile_Flush _ w) as [[??]?].
Qed.

(** An operation that returns an error has not touched the key directory;
    no assumption on the state is needed. *)
Lemma Put_err_keyDir now key value bc w bc' e w' :
  Put now key value bc w = ((bc', Some e), w') → keyDir bc' = keyDir bc.
Proof.
  unfold Put. pose proof (rotateActiveFile_keyDir bc w) as Hrot.
  destruct (if _ <=? _ then _ else _) as [[bc1 e1] w1] eqn:Hif.
  assert (Hkd1 : keyDir bc1 = keyDir bc).
  { destruct (_ <=? _); [by rewrite Hif in Hrot|by injection Hif as <- _ _]. }
  destruct e1; [by intros [= <- _ _]|].
  destruct (LogFile_Write _ _ w1) as [[lf r] w2]. destruct r; [|by intros [= <- _ _]].
  pose proof (sync_or_flush_keyDir (with_activeFile bc1 lf) w2) as Hsf.
  destruct (sync_or_flush _ w2) as [[bc3 e3] w3]. destruct e3; [|done].
  intros [= <- _ _]. by rewrite <- Hkd1.
Qed.

Lemma Delete_err_keyDir now key bc w bc' e w' :
  Delete now key bc w = ((bc', Some e), w') → keyDir bc' = keyDir bc.
Proof.
  unfold Delete. destruct (keyDir bc !! key); [|by intros [= <- _ _]].
  destruct (LogFile_Write _ _ w) as [[lf r] w2]. destruct r; [|by intros [= <- _ _]].
  pose proof (sync_or_flush_keyDir (with_activeFile bc lf) w2) as Hsf.
  destruct (sync_or_flush _ w2) as [[bc3 e3] w3]. destruct e3; [|done].
  by intros [= <- _ _].
Qed.

Lemma Delete_ok_keyDir now key bc w bc' w' :
  Delete now key bc w = ((bc', None), w') →
  is_Some (keyDir bc !! key) ∧ keyDir bc' = delete key (keyDir bc).
Proof.
  unfold Delete. destruct (keyDir bc !! key); [|done].
  destruct (LogFile_Write _ _ w) as [[lf r] w2]. destruct r; [|done].
  pose proof (sync_or_flush_keyDir (with_activeFile bc lf) w2) as Hsf.
  destruct (sync_or_flush _ w2) as [[bc3 e3] w3]. destruct e3; [done|].
  intros [= <- _]. split; [done|]. cbn [keyDir with_keyDir]. simpl in Hsf.
  by rewrite Hsf.
Qed.

(** [Delete] touches neither the identity of the active file nor the
    read-only files, and creates no file. *)
Lemma Delete_frame now key bc w :
  let '((bc', _), w') := Delete now key bc w in
  lf_id (activeFile bc') = lf_id (activeFile bc) ∧
  readOnlyFiles bc' = readOnlyFiles bc ∧ dom (files w') = dom (files w).
Proof.
  unfold Delete. destruct (keyDir bc !! key); [|done].
  destruct (LogFile_Write _ _ w) as [[lf r] w2] eqn:Hw.
  assert (Hlf : lf_id lf = lf_id (activeFile bc) ∧ dom (files w2) = dom (files w)).
  { destruct (lf_readOnly (activeFile bc)) eqn:Hro.
    - unfold LogFile_Write in Hw. rewrite Hro in Hw. by injection Hw as <- _ <-.
    - apply LogFile_Write_spec in Hw as (x & Hx & ? & _); [|done].
      split; [done|]. by eapply appends_dom. }
  destruct Hlf as [Hid Hdom]. destruct r; [|done].
  destruct (sync_or_flush _ w2) as [[bc3 e3] w3] eqn:Hs.
  apply sync_or_flush_spec in Hs as (lf' & e0 & -> & (y & Hy & Hid' & _) & _).
  simpl in *. apply appends_dom in Hy.
  destruct e3; simpl; (split; [congruence|split; [done|congruence]]).
Qed.

(** ** Replay of a log *)

Lemma encodeAll_cons r rs : encodeAll (r :: rs) = encode r ++ encodeAll rs.
Proof. done. Qed.

Lemma encodeAll_app rs1 rs2 : encodeAll (rs1 ++ rs2) = encodeAll rs1 ++ encodeAll rs2.
Proof. unfold encodeAll. by rewrite map_app, concat_app. Qed.

Lemma encodeAll_length_ge rs : (length rs ≤ length (encodeAll rs))%nat.
Proof.
  induction rs as [|r rs IH]; [done|]. rewrite encodeAll_cons, length_app.
  pose proof (encode_length r) as Hl. unfold len in Hl. simpl. lia.
Qed.

Lemma replay_app id pos rs1 rs2 kd :
  replay id pos (rs1 ++ rs2) kd
  = replay id (pos + len (encodeAll rs1)) rs2 (replay id pos rs1 kd).
Proof.
  revert pos kd. induction rs1 as [|r rs1 IH]; intros pos kd; simpl.
  { f_equal. unfold len. simpl. lia. }
  rewrite IH. f_equal. rewrite encodeAll_cons. unfold len. rewrite length_app. lia.
Qed.

Lemma ReadEntry_end c : ReadEntry c (len c) = Err EOF.
Proof.
  unfold ReadEntry, len. destruct (Z.ltb_spec (Z.of_nat (length c)) 0); [lia|].
  by rewrite Nat2Z.id, drop_all.
Qed.

(** The loop on a file that holds the records [rs] and then bytes [t] that
    do not decode: the records are applied, and the error of the last read
    decides. *)
Lemma rebuildKeyDir_loop_log fuel pre rs t id kd err :
  Forall wf_entry rs → (length rs < fuel)%nat →
  ReadEntry (pre ++ encodeAll rs ++ t) (len pre + len (encodeAll rs)) = Err err →
  rebuildKeyDir_loop fuel (pre ++ encodeAll rs ++ t) id (len pre) kd
  = if String.eqb (Error err) "EOF" then Ok (replay id (len pre) rs kd) else Err err.
Proof.
  intros Hwf. revert fuel pre kd.
  induction Hwf as [|r rs Hr Hrs IH]; intros fuel pre kd Hfuel Hlast.
  - destruct fuel as [|fuel]; [simpl in Hfuel; lia|]. simpl.
    replace (len pre + len (encodeAll [])) with (len pre) in Hlast by (unfold len; simpl; lia).
    simpl in Hlast. by rewrite Hlast.
  - destruct fuel as [|fuel]; [simpl in Hfuel; lia|]. cbn [rebuildKeyDir_loop].
    rewrite encodeAll_cons, <- app_assoc.
    rewrite ReadEntry_encode by done.
    replace (len pre + 12 + len (le_Key r) + len (le_Value r)) with (len (pre ++ encode r))
      by (unfold len; rewrite length_app; pose proof (encode_length r); unfold len in *; lia).
    replace (pre ++ encode r ++ encodeAll rs ++ t) with ((pre ++ encode r) ++ encodeAll rs ++ t)
      by (by rewrite <- app_assoc).
    rewrite IH.
    + cbn [replay]. replace (len pre + len (encode r)) with (len (pre ++ encode r))
        by (unfold len; rewrite length_app; lia). done.
    + simpl in Hfuel. lia.
    + rewrite <- Hlast. rewrite encodeAll_cons, <- !app_assoc. f_equal.
      unfold len. rewrite !length_app. lia.
Qed.

(** [rebuildKeyDir] on a segment that holds exactly the records [rs]. *)
Lemma rebuildKeyDir_log fs lf rs kd :
  file_content fs (lf_id lf) = encodeAll rs → Forall wf_entry rs →
  rebuildKeyDir fs lf kd = Ok (replay (lf_id lf) 0 rs kd).
Proof.
  intros Hc Hwf. unfold rebuildKeyDir. rewrite Hc.
  pose proof (rebuildKeyDir_loop_log (S (length (encodeAll rs))) [] rs [] (LogFile_ID lf) kd EOF
                Hwf) as H.
  rewrite app_nil_r in H. simpl in H. apply H.
  - pose proof (encodeAll_length_ge rs). lia.
  - replace (len [] + len (encodeAll rs)) with (len (encodeAll rs)) by (unfold len; simpl; lia).
    apply ReadEntry_end.
Qed.

(** ** Truncated records *)

Lemma binary_Read_u32_short r :
  (length r < 4)%nat →
  binary_Read_u32 r = Err (if bool_decide (r = []) then EOF else ErrUnexpectedEOF).
Proof.
  intros Hl. unfold binary_Read_u32, io_ReadFull. destruct r as [|b r]; [done|].
  destruct (Nat.ltb_spec (length (b :: r)) 4); [done|lia].
Qed.

Lemma io_ReadFull_short r n :
  (length r < n)%nat →
  io_ReadFull r n = Err (if bool_decide (r = []) then EOF else ErrUnexpectedEOF).
Proof.
  intros Hl. unfold io_ReadFull. destruct n as [|n]; [lia|]. destruct r as [|b r]; [done|].
  destruct (Nat.ltb_spec (length (b :: r)) (S n)); [done|lia].
Qed.

Lemma take_nil_iff {A} (l : list A) n : take n l = [] ↔ n = 0%nat ∨ l = [].
Proof.
  destruct l as [|a l], n as [|n]; simpl; split; auto; try done.
  intros [?|?]; congruence.
Qed.

(** Decoding a record of which only the first [n] bytes are in the file:
    [io.EOF] if the cut is on a field boundary, [io.ErrUnexpectedEOF] if it
    is inside a field. *)
Lemma ReadEntry_truncated pre e n :
  wf_entry e → (0 < n < length (encode e))%nat →
  ReadEntry (pre ++ take n (encode e)) (len pre)
  = Err (if on_field_boundary e n then EOF else ErrUnexpectedEOF).
Proof.
  intros (Hts & Hks & Hvs & Hkl & Hvl) Hn. unfold ReadEntry, len in *.
  destruct (Z.ltb_spec (Z.of_nat (length pre)) 0); [lia|].
  rewrite Nat2Z.id, drop_app_length.
  pose proof (encode_length e) as Hel. unfold len in Hel.
  assert (Hn' : (0 < n < 12 + length (le_Key e) + length (le_Value e))%nat) by lia.
  clear Hn Hel. rename Hn' into Hn. unfold encode, on_field_boundary.
  assert (Hcut : ∀ (l : list byte) m, (0 < m)%nat → l ≠ [] → bool_decide (take m l = []) = false).
  { intros l m Hm Hl. apply bool_decide_eq_false_2. rewrite take_nil_iff. intros [?|?]; [lia|done]. }
  assert (Hh : ∀ v, PutUint32 v ≠ []) by done.
  destruct (decide (n < 4)%nat) as [H1|H1].
  { rewrite (take_app_le (PutUint32 _)) by (rewrite PutUint32_length; lia).
    rewrite binary_Read_u32_short by (rewrite length_take, PutUint32_length; lia).
    rewrite Hcut by (done || lia). rewrite bool_decide_eq_false_2; [done|lia]. }
  rewrite (take_app_ge (PutUint32 _)) by (rewrite PutUint32_length; lia).
  rewrite binary_Read_u32_app by done. cbn [mbind result_bind].
  rewrite PutUint32_length.
  destruct (decide (n - 4 < 4)%nat) as [H2|H2].
  { rewrite (take_app_le (PutUint32 _)) by (rewrite PutUint32_length; lia).
    rewrite binary_Read_u32_short by (rewrite length_take, PutUint32_length; lia).
    cbn [mbind result_bind]. f_equal.
    destruct (decide (n = 4%nat)) as [->|Hne].
    - rewrite (bool_decide_eq_true_2 (_ ∨ _)) by lia.
      rewrite bool_decide_eq_true_2; [done|]. rewrite take_nil_iff. left. lia.
    - rewrite Hcut by (done || lia). rewrite bool_decide_eq_false_2; [done|lia]. }
  rewrite (take_app_ge (PutUint32 _)) by (rewrite PutUint32_length; lia).
  rewrite binary_Read_u32_app by lia. cbn [mbind result_bind].
  rewrite PutUint32_length.
  destruct (decide (n - 4 - 4 < 4)%nat) as [H3|H3].
  { rewrite (take_app_le (PutUint32 _)) by (rewrite PutUint32_length; lia).
    rewrite binary_Read_u32_short by (rewrite length_take, PutUint32_length; lia).
    cbn [mbind result_bind]. f_equal.
    destruct (decide (n = 8%nat)) as [->|Hne].
    - rewrite (bool_decide_eq_true_2 (_ ∨ _)) by lia.
      rewrite bool_decide_eq_true_2; [done|]. rewrite take_nil_iff. left. lia.
    - rewrite Hcut by (done || lia). rewrite bool_decide_eq_false_2; [done|lia]. }
  rewrite (take_app_ge (PutUint32 _)) by (rewrite PutUint32_length; lia).
  rewrite binary_Read_u32_app by lia. cbn [mbind result_bind].
  rewrite PutUint32_length, Hks, Hvs, !Nat2Z.id.
  destruct (decide (n - 4 - 4 - 4 < length (le_Key e))%nat) as [H4|H4].
  { rewrite (take_app_le (le_Key e)) by lia.
    rewrite io_ReadFull_short by (rewrite length_take; lia).
    cbn [mbind result_bind]. f_equal.
    destruct (decide (n = 12%nat)) as [->|Hne].
    - rewrite (bool_decide_eq_true_2 (_ ∨ _)) by lia.
      rewrite bool_decide_eq_true_2; [done|]. rewrite take_nil_iff. left. lia.
    - rewrite Hcut; [|lia|by intros Hnil; rewrite Hnil in H4; simpl in H4; lia].
      rewrite bool_decide_eq_false_2; [done|lia]. }
  rewrite (take_app_ge (le_Key e)) by lia. rewrite io_ReadFull_app. cbn [mbind result_bind].
  rewrite io_ReadFull_short by (rewrite length_take; lia).
  cbn [mbind result_bind]. f_equal.
  destruct (decide (n = 12 + length (le_Key e))%nat) as [->|Hne].
  - rewrite (bool_decide_eq_true_2 (_ ∨ _)) by lia.
    rewrite bool_decide_eq_true_2; [done|]. rewrite take_nil_iff. left. lia.
  - rewrite Hcut; [|lia|by intros Hnil; rewrite Hnil in Hn; simpl in Hn; lia].
    rewrite bool_decide_eq_false_2; [done|lia].
Qed.

(** ** Segment ids *)

Lemma maxID_spec (ro : gmap Z LogFile) :
  0 ≤ maxID ro ∧ (∀ id, is_Some (ro !! id) → id ≤ maxID ro) ∧
  (maxID ro = 0 ∨ is_Some (ro !! maxID ro)).
Proof.
  unfold maxID.
  apply (map_fold_weak_ind (λ r (m : gmap Z LogFile),
    0 ≤ r ∧ (∀ id, is_Some (m !! id) → id ≤ r) ∧ (r = 0 ∨ is_Some (m !! r)))).
  - split; [done|]. split; [|by left]. intros id. rewrite lookup_empty. by intros [? ?].
  - intros i x m r Hi (H0 & Hub & Hatt). destruct (Z.ltb_spec r i) as [Hlt|Hge].
    + split; [lia|]. split; [|right; by rewrite lookup_insert_eq].
      intros id. destruct (decide (id = i)) as [->|Hne]; [lia|].
      rewrite lookup_insert_ne by done. intros H. specialize (Hub id H). lia.
    + split; [done|]. split.
      * intros id. destruct (decide (id = i)) as [->|Hne]; [lia|].
        rewrite lookup_insert_ne by done. apply Hub.
      * destruct Hatt as [->|Hatt]; [by left|right].
        destruct (decide (r = i)) as [->|Hne]; [by rewrite lookup_insert_eq|].
        by rewrite lookup_insert_ne.
Qed.

Lemma maxID_ge ro id : is_Some (ro !! id) → id ≤ maxID ro.
Proof. apply maxID_spec. Qed.

Lemma maxID_empty : maxID ∅ = 0.
Proof. done. Qed.

(** The greatest id is determined by the set of ids. *)
Lemma maxID_unique ro n :
  0 ≤ n → (∀ id, is_Some (ro !! id) → id ≤ n) → (n = 0 ∨ is_Some (ro !! n)) → maxID ro = n.
Proof.
  intros H0 Hub Hatt. destruct (maxID_spec ro) as (H0' & Hub' & Hatt').
  destruct Hatt as [->|Hn], Hatt' as [Hz|Hm]; try lia.
  - specialize (Hub _ Hm). lia.
  - specialize (Hub' _ Hn). lia.
  - specialize (Hub _ Hm). specialize (Hub' _ Hn). lia.
Qed.

Lemma elem_of_fileIDs fs id :
  id ∈ fileIDs fs ↔ is_Some (fs !! id) ∧ 0 ≤ id < 2 ^ 32.
Proof.
  unfold fileIDs. rewrite merge_sort_Permutation, list_elem_of_filter, elem_of_elements,
    elem_of_dom. tauto.
Qed.

Lemma fileIDs_sorted fs : StronglySorted Z.le (fileIDs fs).
Proof. apply StronglySorted_merge_sort; apply _. Qed.

Lemma fileIDs_NoDup fs : NoDup (fileIDs fs).
Proof.
  unfold fileIDs. rewrite merge_sort_Permutation. apply NoDup_filter, NoDup_elements.
Qed.

Lemma fileIDs_dom fs fs' : dom fs' = dom fs → fileIDs fs' = fileIDs fs.
Proof. unfold fileIDs. by intros ->. Qed.

(** A list of ids is the list of segment ids if it is sorted, without
    duplicates, and has the right elements. *)
Lemma fileIDs_unique fs ids :
  StronglySorted Z.le ids → NoDup ids →
  (∀ id, id ∈ ids ↔ is_Some (fs !! id) ∧ 0 ≤ id < 2 ^ 32) →
  fileIDs fs = ids.
Proof.
  intros Hs Hnd Hel. apply (StronglySorted_unique Z.le); [apply fileIDs_sorted|done|].
  apply NoDup_Permutation; [apply fileIDs_NoDup|done|].
  intros id. by rewrite elem_of_fileIDs, Hel.
Qed.

(** A new segment with an id above all others comes last. *)
Lemma fileIDs_insert_last fs id c :
  0 ≤ id < 2 ^ 32 → (∀ j, j ∈ fileIDs fs → j < id) →
  fileIDs (<[id := c]> fs) = fileIDs fs ++ [id].
Proof.
  intros Hr Hlt. apply fileIDs_unique.
  - apply StronglySorted_app_2; [|apply fileIDs_sorted|repeat constructor].
    intros x1 x2 H1 ->%list_elem_of_singleton. specialize (Hlt _ H1). lia.
  - apply NoDup_app. split; [apply fileIDs_NoDup|]. split; [|apply NoDup_singleton].
    intros x H1 ->%list_elem_of_singleton. specialize (Hlt _ H1). lia.
  - intros j. rewrite elem_of_app, list_elem_of_singleton, elem_of_fileIDs.
    destruct (decide (j = id)) as [->|Hne].
    + rewrite lookup_insert_eq. split; [done|]. by right.
    + rewrite lookup_insert_ne by done. split; [intros [?|?]; done|]. by left.
Qed.

Lemma fileIDs_empty : fileIDs ∅ = [].
Proof. done. Qed.

(** ** [loadFiles] segment by segment *)

Lemma loadFiles_loop_app ids1 ids2 w kd ro :
  loadFiles_loop (ids1 ++ ids2) w kd ro
  = match loadFiles_loop ids1 w kd ro with
    | Ok (kd1, ro1) => loadFiles_loop ids2 w kd1 ro1
    | Err e => Err e
    end.
Proof.
  revert kd ro. induction ids1 as [|id ids1 IH]; intros kd ro; [done|].
  cbn [app loadFiles_loop]. destruct (NewLogFile id true w).1 as [lf|]; [|done].
  destruct (rebuildKeyDir _ lf kd); [apply IH|done].
Qed.

(** [loadFiles] only reads, and only the files it is asked to load. *)
Lemma loadFiles_loop_ext ids w w' kd ro :
  (∀ id, id ∈ ids → files w' !! id = files w !! id) →
  loadFiles_loop ids w' kd ro = loadFiles_loop ids w kd ro.
Proof.
  revert kd ro. induction ids as [|id ids IH]; intros kd ro Hext; [done|].
  cbn [loadFiles_loop]. rewrite !NewLogFile_ro_spec. cbn [fst].
  rewrite (Hext id) by left. destruct (files w !! id) as [c|] eqn:Hc; [|done].
  assert (Hr : ∀ lf, lf_id lf = id → rebuildKeyDir (files w') lf kd = rebuildKeyDir (files w) lf kd).
  { intros lf Hid. unfold rebuildKeyDir, file_content. by rewrite Hid, (Hext id) by left. }
  rewrite Hr by done. destruct (rebuildKeyDir _ _ kd); [|done].
  apply IH. intros j Hj. apply Hext. by right.
Qed.

Lemma loadFiles_oracle fs o : loadFiles {| files := fs; oracle := o |}
                              = loadFiles {| files := fs; oracle := [] |}.
Proof. unfold loadFiles. cbn [files]. by apply loadFiles_loop_ext. Qed.

(** The read-only files after the loop: the old ones and one per id. *)
Lemma loadFiles_loop_ro ids w kd ro kd' ro' :
  loadFiles_loop ids w kd ro = Ok (kd', ro') →
  ∀ id lf, ro' !! id = Some lf →
    ro !! id = Some lf ∨
    (id ∈ ids ∧ ∃ c, files w !! id = Some c ∧ lf = readOnlyLogFile id c).
Proof.
  apply (loadFiles_loop_inv (λ _ ro', ∀ id lf, ro' !! id = Some lf →
    ro !! id = Some lf ∨
    (id ∈ ids ∧ ∃ c, files w !! id = Some c ∧ lf = readOnlyLogFile id c))); [|auto].
  intros id c kd0 ro0 kd1 IH Hc Hin _ j lf.
  destruct (decide (j = id)) as [->|Hne].
  - rewrite lookup_insert_eq. intros [= <-]. right. split; [done|]. by exists c.
  - rewrite lookup_insert_ne by done. apply IH.
Qed.

Lemma loadFiles_loop_ro_dom ids w kd ro kd' ro' id :
  loadFiles_loop ids w kd ro = Ok (kd', ro') →
  id ∈ ids ∨ is_Some (ro !! id) → is_Some (ro' !! id).
Proof.
  revert kd ro. induction ids as [|j ids IH]; intros kd ro; cbn [loadFiles_loop].
  { intros [= <- <-] [Hin|?]; [by apply elem_of_nil in Hin|done]. }
  destruct (NewLogFile j true w).1 as [lf|]; [|done].
  destruct (rebuildKeyDir _ lf kd) as [kd1|]; [|done].
  intros Hl Hid. apply (IH _ _ Hl).
  destruct (decide (id = j)) as [->|Hne]; [right; by rewrite lookup_insert_eq|].
  rewrite lookup_insert_ne by done.
  destruct Hid as [Hin|?]; [|by right]. apply elem_of_cons in Hin as [?|?]; [done|by left].
Qed.

(** [loadFiles] when the last segment is [id], with the contents [c]. *)
Lemma loadFiles_last fs init id c :
  fileIDs fs = init ++ [id] → fs !! id = Some c →
  loadFiles {| files := fs; oracle := [] |}
  = match loadFiles_loop init {| files := fs; oracle := [] |} ∅ ∅ with
    | Ok (kd0, ro0) =>
        match rebuildKeyDir fs (readOnlyLogFile id c) kd0 with
        | Ok kd => Ok (kd, <[id := readOnlyLogFile id c]> ro0)
        | Err e => Err e
        end
    | Err e => Err e
    end.
Proof.
  intros Hids Hc. unfold loadFiles. cbn [files]. rewrite Hids, loadFiles_loop_app.
  destruct (loadFiles_loop init _ ∅ ∅) as [[kd0 ro0]|]; [|done].
  cbn [loadFiles_loop]. rewrite NewLogFile_ro_spec. cbn [fst files]. rewrite Hc.
  fold (readOnlyLogFile id c). by destruct (rebuildKeyDir _ _ kd0).
Qed.

Lemma fileIDs_last_max fs init id j :
  fileIDs fs = init ++ [id] → j ∈ fileIDs fs → j ≤ id.
Proof.
  intros Hids Hj. pose proof (fileIDs_sorted fs) as Hs. rewrite Hids in Hs, Hj.
  apply elem_of_app in Hj as [Hj|Hj%list_elem_of_singleton]; [|lia].
  eapply (StronglySorted_app_1_elem_of Z.le); [done..|by apply list_elem_of_singleton].
Qed.

Lemma fileIDs_last_not_in fs init id : fileIDs fs = init ++ [id] → id ∉ init.
Proof.
  intros Hids Hin. pose proof (fileIDs_NoDup fs) as Hnd. rewrite Hids in Hnd.
  apply NoDup_app in Hnd as (_ & Hdis & _). apply (Hdis id Hin). by left.
Qed.

(** ** The invariant of a database written without faults *)

Lemma log_inv_engine_ok bc fs kd : log_inv bc fs kd → engine_ok bc fs.
Proof.
  intros [Hro [He Hb] Hsz [init Hlast] Hids _ _]. split; [done|]. split.
  - intros _. split; [done|]. split; [|done].
    assert (Hin : lf_id (activeFile bc) ∈ fileIDs fs).
    { rewrite Hlast, elem_of_app. right. by left. }
    by apply elem_of_fileIDs in Hin as [? _].
  - intros id lf Hlf. by destruct (Hids id lf Hlf).
Qed.

Lemma log_inv_active_in bc fs kd :
  log_inv bc fs kd →
  is_Some (fs !! lf_id (activeFile bc)) ∧ 0 ≤ lf_id (activeFile bc) < 2 ^ 32.
Proof.
  intros [_ _ _ [init Hlast] _ _ _]. apply elem_of_fileIDs.
  rewrite Hlast, elem_of_app. right. by left.
Qed.

(** The replay of the segments before the last, and of the last one. *)
Lemma log_inv_replay bc fs kd init rs :
  log_inv bc fs kd → fileIDs fs = init ++ [lf_id (activeFile bc)] →
  Forall wf_entry rs → file_content fs (lf_id (activeFile bc)) = encodeAll rs →
  ∃ kd0 ro0, loadFiles_loop init {| files := fs; oracle := [] |} ∅ ∅ = Ok (kd0, ro0) ∧
             kd = replay (lf_id (activeFile bc)) 0 rs kd0.
Proof.
  intros Hinv Hlast Hwf Hc. destruct (log_inv_active_in _ _ _ Hinv) as [[c Hfc] _].
  destruct (li_replay _ _ _ Hinv) as [ro Hload].
  rewrite (loadFiles_last _ _ _ _ Hlast Hfc) in Hload.
  destruct (loadFiles_loop init _ ∅ ∅) as [[kd0 ro0]|]; [|done].
  exists kd0, ro0. split; [done|].
  rewrite (rebuildKeyDir_log _ _ rs) in Hload by done. by injection Hload as <- _.
Qed.

(** A whole record appended to the active file: the invariant holds with the
    record applied to the replayed key directory. *)
Lemma log_inv_append bc fs kd entry bc' fs' :
  log_inv bc fs kd → wf_entry entry →
  appended_record bc fs entry bc' fs' →
  log_inv bc' fs'
    (applyEntry (lf_id (activeFile bc)) (len (file_content fs (lf_id (activeFile bc)))) entry kd).
Proof.
  intros Hinv Hwf (Happ & Hex & _ & Hro' & _ & Hid' & Hronly' & He' & Hb' & Hsz').
  pose proof Hinv as [_ _ _ [init Hlast] Hids [rs [Hrs Hc]] _].
  set (aid := lf_id (activeFile bc)) in *.
  assert (Hfid : fileIDs fs' = fileIDs fs) by (by apply fileIDs_dom; eapply appends_dom).
  assert (Hc' : file_content fs' aid = encodeAll (rs ++ [entry])).
  { rewrite (appends_content _ _ _ _ Happ Hex), Hc, encodeAll_app.
    unfold encodeAll at 3. simpl. by rewrite app_nil_r. }
  destruct (log_inv_replay _ _ _ _ _ Hinv Hlast Hrs Hc) as (kd0 & ro0 & Hload0 & ->).
  split.
  - done.
  - done.
  - by rewrite Hid'.
  - exists init. by rewrite Hfid, Hid'.
  - intros id lf Hlf. rewrite Hro' in Hlf. rewrite Hfid. by apply Hids.
  - rewrite Hid'. exists (rs ++ [entry]). split; [|done].
    apply Forall_app. split; [done|]. by constructor.
  - destruct Hex as [c Hfc].
    assert (Hfc' : fs' !! aid = Some (c ++ encode entry)).
    { by rewrite (appends_lookup _ _ _ _ Happ), Hfc. }
    eexists. rewrite (loadFiles_last fs' init aid _) by (by rewrite ?Hfid).
    rewrite (loadFiles_loop_ext init {| files := fs; oracle := [] |}).
    2: { intros j Hj. cbn [files]. apply (appends_lookup_ne _ _ _ _ _ Happ).
         intros ->. by apply (fileIDs_last_not_in _ _ _ Hlast). }
    rewrite Hload0.
    rewrite (rebuildKeyDir_log _ _ (rs ++ [entry])); [|done|].
    2: { apply Forall_app. split; [done|]. by constructor. }
    cbn [lf_id readOnlyLogFile]. rewrite replay_app. cbn [replay].
    rewrite Hc. replace (0 + len (encodeAll rs)) with (len (encodeAll rs)) by lia. done.
Qed.

(** A rotation that returns no error. *)
Lemma rotateActiveFile_ok bc w bc' w' :
  rotateActiveFile bc w = ((bc', None), w') →
  ∃ lf1 fs1,
    flush_post (activeFile bc) (files w) lf1 fs1 None ∧
    readOnlyFiles bc' = <[lf_id lf1 := lf1]> (readOnlyFiles bc) ∧
    activeFile bc' =
      {| lf_id := u32 (maxID (readOnlyFiles bc') + 1); lf_writer := clean_writer;
         lf_size := len (file_content fs1 (u32 (maxID (readOnlyFiles bc') + 1)));
         lf_readOnly := false |} ∧
    files w' = created (u32 (maxID (readOnlyFiles bc') + 1)) fs1 ∧
    keyDir bc' = keyDir bc ∧ config bc' = config bc.
Proof.
  unfold rotateActiveFile. destruct (LogFile_Sync _ w) as [[lf1 e1] w1] eqn:Hs.
  apply LogFile_Sync_spec in Hs. destruct e1; [done|].
  unfold createActiveFile.
  cbn [readOnlyFiles with_readOnlyFiles with_activeFile activeFile LogFile_ID].
  destruct (NewLogFile _ false w1) as [[lf2|] w2] eqn:Hn; [|done].
  intros [= <- <-]. apply NewLogFile_rw_spec in Hn as [-> Hfs].
  exists lf1, (files w1). done.
Qed.

Lemma flush_post_clean lf fs lf' fs' :
  lf_readOnly lf = false → clean_file lf → flush_post lf fs lf' fs' None →
  fs' = fs ∧ clean_file lf' ∧ lf_id lf' = lf_id lf ∧ lf_size lf' = lf_size lf.
Proof.
  intros Hro [He Hb] (x & Hx & Hid & Hsz & _ & Hclean & _ & Hfin).
  pose proof (Hfin Hro eq_refl) as He'. destruct (Hclean He') as [_ Hfl].
  destruct (Hfl Hro) as [-> Hb']. rewrite Hb in Hx.
  split; [by rewrite Hx; symmetry; apply appends_nil|done].
Qed.

Lemma log_inv_maxID bc fs kd lf :
  log_inv bc fs kd →
  maxID (<[lf_id (activeFile bc) := lf]> (readOnlyFiles bc)) = lf_id (activeFile bc).
Proof.
  intros Hinv. destruct (log_inv_active_in _ _ _ Hinv) as [_ Hr].
  pose proof Hinv as [_ _ _ [init Hlast] Hids _ _].
  apply maxID_unique; [lia| |right; by rewrite lookup_insert_eq].
  intros id. destruct (decide (id = lf_id (activeFile bc))) as [->|Hne]; [lia|].
  rewrite lookup_insert_ne by done. intros [lf' Hlf'].
  destruct (Hids _ _ Hlf') as (_ & _ & Hin). by eapply fileIDs_last_max.
Qed.

(** The segment after the last one is not in the directory. *)
Lemma log_inv_next_fresh bc fs kd :
  log_inv bc fs kd → lf_id (activeFile bc) < 2 ^ 32 - 1 →
  fs !! (lf_id (activeFile bc) + 1) = None ∧
  ∀ j, j ∈ fileIDs fs → j < lf_id (activeFile bc) + 1.
Proof.
  intros Hinv Hlt. destruct (log_inv_active_in _ _ _ Hinv) as [_ Hr].
  pose proof Hinv as [_ _ _ [init Hlast] _ _ _].
  assert (Hall : ∀ j, j ∈ fileIDs fs → j < lf_id (activeFile bc) + 1).
  { intros j Hj. pose proof (fileIDs_last_max _ _ _ _ Hlast Hj). lia. }
  split; [|done]. destruct (fs !! (lf_id (activeFile bc) + 1)) as [c|] eqn:Hc; [|done].
  assert (Hin : lf_id (activeFile bc) + 1 ∈ fileIDs fs).
  { apply elem_of_fileIDs. rewrite Hc. split; [done|lia]. }
  specialize (Hall _ Hin). lia.
Qed.

(** A new, empty last segment [id + 1] with a clean active file on it. *)
Lemma log_inv_new_segment bc fs kd bc' :
  log_inv bc fs kd → lf_id (activeFile bc) < 2 ^ 32 - 1 →
  activeFile bc' = {| lf_id := lf_id (activeFile bc) + 1; lf_writer := clean_writer;
                      lf_size := 0; lf_readOnly := false |} →
  (∀ id lf, readOnlyFiles bc' !! id = Some lf →
     lf_id lf = id ∧ clean_file lf ∧ id ∈ fileIDs fs) →
  log_inv bc' (<[lf_id (activeFile bc) + 1 := []]> fs) kd.
Proof.
  intros Hinv Hlt Hact Hro. destruct (log_inv_next_fresh _ _ _ Hinv Hlt) as [Hfresh Hall].
  destruct (log_inv_active_in _ _ _ Hinv) as [_ Hr].
  set (nid := lf_id (activeFile bc) + 1) in *.
  assert (Hfid : fileIDs (<[nid := []]> fs) = fileIDs fs ++ [nid]).
  { apply fileIDs_insert_last; [lia|done]. }
  assert (Hfc : file_content (<[nid := []]> fs) nid = []).
  { unfold file_content. by rewrite lookup_insert_eq. }
  split; rewrite ?Hact; cbn [activeFile lf_id lf_writer lf_size lf_readOnly].
  - done.
  - done.
  - by rewrite Hfc.
  - by exists (fileIDs fs).
  - intros id lf Hlf. destruct (Hro id lf Hlf) as (? & ? & Hin).
    split; [done|]. split; [done|]. rewrite Hfid, elem_of_app. by left.
  - rewrite Hfc. exists []. split; [constructor|done].
  - destruct (li_replay _ _ _ Hinv) as [ro Hload]. eexists.
    rewrite (loadFiles_last _ (fileIDs fs) nid []); [|done|by rewrite lookup_insert_eq].
    rewrite (loadFiles_loop_ext _ {| files := fs; oracle := [] |}).
    2: { intros j Hj. cbn [files]. rewrite lookup_insert_ne; [done|].
         specialize (Hall _ Hj). lia. }
    unfold loadFiles in Hload. cbn [files] in Hload. rewrite Hload.
    rewrite (rebuildKeyDir_log _ _ []); [done| |constructor].
    cbn [lf_id readOnlyLogFile]. by rewrite Hfc.
Qed.

Lemma log_inv_rotate bc fs o kd bc' w' :
  log_inv bc fs kd → lf_id (activeFile bc) < 2 ^ 32 - 1 →
  rotateActiveFile bc {| files := fs; oracle := o |} = ((bc', None), w') →
  log_inv bc' (files w') kd ∧ keyDir bc' = keyDir bc ∧ config bc' = config bc ∧
  lf_id (activeFile bc') = lf_id (activeFile bc) + 1 ∧
  files w' = <[lf_id (activeFile bc) + 1 := []]> fs ∧
  fs !! (lf_id (activeFile bc) + 1) = None ∧
  is_Some (readOnlyFiles bc' !! lf_id (activeFile bc)).
Proof.
  intros Hinv Hlt Hrot.
  apply rotateActiveFile_ok in Hrot as (lf1 & fs1 & Hf & Hro' & Hact & Hfs & Hkd & Hcfg).
  cbn [files] in Hf.
  destruct (flush_post_clean _ _ _ _ (li_readOnly _ _ _ Hinv) (li_clean _ _ _ Hinv) Hf)
    as (-> & Hclean1 & Hid1 & Hsz1).
  destruct (log_inv_next_fresh _ _ _ Hinv Hlt) as [Hfresh _].
  destruct (log_inv_active_in _ _ _ Hinv) as [_ Hr].
  assert (Hmax : maxID (readOnlyFiles bc') = lf_id (activeFile bc)).
  { rewrite Hro', Hid1. by eapply log_inv_maxID. }
  assert (Hnid : u32 (maxID (readOnlyFiles bc') + 1) = lf_id (activeFile bc) + 1).
  { rewrite Hmax. unfold u32. apply Z.mod_small. lia. }
  rewrite Hnid in Hact, Hfs.
  assert (Hfs' : files w' = <[lf_id (activeFile bc) + 1 := []]> fs).
  { rewrite Hfs. unfold created. by rewrite Hfresh. }
  assert (Hact' : activeFile bc' = {| lf_id := lf_id (activeFile bc) + 1;
             lf_writer := clean_writer; lf_size := 0; lf_readOnly := false |}).
  { rewrite Hact. unfold file_content. by rewrite Hfresh. }
  split; [|split; [done|split; [done|split; [by rewrite Hact'|split; [done|split; [done|]]]]]].
  - rewrite Hfs'. apply (log_inv_new_segment bc fs kd bc' Hinv Hlt Hact').
    intros id lf. rewrite Hro', Hid1.
    destruct (decide (id = lf_id (activeFile bc))) as [->|Hne].
    + rewrite lookup_insert_eq. intros [= <-]. split; [done|]. split; [done|].
      destruct (li_last _ _ _ Hinv) as [init ->]. rewrite elem_of_app. right. by left.
    + rewrite lookup_insert_ne by done. apply (li_ro _ _ _ Hinv).
  - rewrite Hro', Hid1. by rewrite lookup_insert_eq.
Qed.

Lemma u32_small z : 0 ≤ z < 2 ^ 32 → u32 z = z.
Proof. intros H. unfold u32. by apply Z.mod_small. Qed.

Lemma u32_range z : 0 ≤ u32 z < 2 ^ 32.
Proof. unfold u32. apply Z.mod_pos_bound. lia. Qed.

Lemma len_nonneg {A} (l : list A) : 0 ≤ len l.
Proof. unfold len. lia. Qed.

Lemma wf_putEntry now key value :
  len (bytes key) < 2 ^ 32 → len value < 2 ^ 32 → wf_entry (putEntry now key value).
Proof.
  intros Hk Hv. unfold wf_entry, putEntry, bytes in *. simpl.
  pose proof (len_nonneg (String.list_byte_of_string key)). pose proof (len_nonneg value).
  rewrite !(u32_small (len _)) by lia. split; [apply u32_range|done].
Qed.

Lemma wf_tombstone now key : len (bytes key) < 2 ^ 32 → wf_entry (tombstone now key).
Proof.
  intros Hk. unfold wf_entry, tombstone, bytes in *. simpl.
  pose proof (len_nonneg (String.list_byte_of_string key)).
  rewrite !(u32_small (len _)) by lia. split; [apply u32_range|].
  unfold len in *. simpl. lia.
Qed.

(** The record of [Put] applied during replay: the entry [Put] installs,
    unless the value is empty, in which case the key is deleted. *)
Lemma applyEntry_putEntry id pos now key value kd :
  len (bytes key) < 2 ^ 32 → len value < 2 ^ 32 →
  applyEntry id pos (putEntry now key value) kd
  = if decide (value = []) then delete key kd
    else <[key := entryAt id pos (putEntry now key value)]> kd.
Proof.
  intros Hk Hv. unfold applyEntry, entryAt, bytes in *.
  cbn [putEntry le_Key le_ValueSize le_KeySize le_Timestamp].
  rewrite String.string_of_list_byte_of_string.
  pose proof (len_nonneg (String.list_byte_of_string key)). pose proof (len_nonneg value).
  rewrite !(u32_small (len _)) by lia.
  destruct (Z.eqb_spec (len value) 0) as [Hz|Hz]; destruct (decide (value = [])) as [->|Hne];
    try done.
  - destruct value; [done|]. unfold len in Hz. simpl in Hz. lia.
Qed.

Lemma applyEntry_tombstone id pos now key kd :
  applyEntry id pos (tombstone now key) kd = delete key kd.
Proof.
  unfold applyEntry. cbn [tombstone le_Key le_ValueSize].
  by rewrite String.string_of_list_byte_of_string.
Qed.

Lemma log_inv_rotate_if_full bc fs o kd bc1 w1 :
  log_inv bc fs kd → lf_id (activeFile bc) < 2 ^ 32 - 1 →
  rotate_if_full bc {| files := fs; oracle := o |} = ((bc1, None), w1) →
  log_inv bc1 (files w1) kd ∧ keyDir bc1 = keyDir bc ∧ config bc1 = config bc.
Proof.
  intros Hinv Hlt. unfold rotate_if_full. case_match.
  - intros Hrot. by destruct (log_inv_rotate _ _ _ _ _ _ Hinv Hlt Hrot) as (? & ? & ? & _).
  - by intros [= <- <-].
Qed.

Lemma log_inv_Put bc fs kd faults now key value bc' w' :
  log_inv bc fs kd → lf_id (activeFile bc) < 2 ^ 32 - 1 →
  len (bytes key) < 2 ^ 32 → len value < 2 ^ 32 →
  Put now key value bc {| files := fs; oracle := faults |} = ((bc', None), w') →
  ∃ e, keyDir bc' = <[key := e]> (keyDir bc) ∧ config bc' = config bc ∧
       log_inv bc' (files w') (if decide (value = []) then delete key kd else <[key := e]> kd).
Proof.
  intros Hinv Hlt Hk Hv HPut.
  pose proof (log_inv_engine_ok _ _ _ Hinv) as Hok.
  destruct (Put_spec now key value bc {| files := fs; oracle := faults |} _ _ _ Hok HPut)
    as [_ (bc1 & w1 & Hrot & Hok1 & Happ & Hkd)].
  destruct (log_inv_rotate_if_full _ _ _ _ _ _ Hinv Hlt Hrot) as (Hinv1 & _ & Hcfg1).
  eexists. split; [exact Hkd|]. split.
  { destruct Happ as (_ & _ & _ & _ & Hc & _). congruence. }
  pose proof (log_inv_append _ _ _ _ _ _ Hinv1 (wf_putEntry now _ _ Hk Hv) Happ) as Hinv'.
  by rewrite applyEntry_putEntry in Hinv'.
Qed.

Lemma log_inv_Delete bc fs kd faults now key bc' w' :
  log_inv bc fs kd → len (bytes key) < 2 ^ 32 →
  Delete now key bc {| files := fs; oracle := faults |} = ((bc', None), w') →
  keyDir bc' = delete key (keyDir bc) ∧ config bc' = config bc ∧
  lf_id (activeFile bc') = lf_id (activeFile bc) ∧
  log_inv bc' (files w') (delete key kd).
Proof.
  intros Hinv Hk HDel.
  pose proof (log_inv_engine_ok _ _ _ Hinv) as Hok.
  destruct (Delete_spec now key bc {| files := fs; oracle := faults |} _ _ _ Hok HDel)
    as [_ (_ & Happ & Hkd)].
  split; [done|].
  pose proof (log_inv_append _ _ _ _ _ _ Hinv (wf_tombstone now _ Hk) Happ) as Hinv'.
  rewrite applyEntry_tombstone in Hinv'.
  destruct Happ as (_ & _ & _ & _ & Hc & Hid & _). done.
Qed.

Lemma log_inv_Sync bc fs kd faults bc' w' :
  log_inv bc fs kd →
  Sync bc {| files := fs; oracle := faults |} = ((bc', None), w') →
  keyDir bc' = keyDir bc ∧ config bc' = config bc ∧
  lf_id (activeFile bc') = lf_id (activeFile bc) ∧ log_inv bc' (files w') kd.
Proof.
  intros Hinv. unfold Sync. destruct (LogFile_Sync _ _) as [[lf e] w1] eqn:Hs.
  intros [= <- -> <-]. apply LogFile_Sync_spec in Hs. cbn [files] in Hs.
  destruct (flush_post_clean _ _ _ _ (li_readOnly _ _ _ Hinv) (li_clean _ _ _ Hinv) Hs)
    as (-> & Hclean & Hid & Hsz).
  destruct Hs as (_ & _ & _ & _ & Hro & _).
  destruct Hinv as [Hr Hc Hs Hl Hids Hlog Hrep].
  do 3 (split; [done|]). split; cbn [activeFile with_activeFile readOnlyFiles]; try done.
  - congruence.
  - by rewrite Hsz, Hid.
  - by rewrite Hid.
  - by rewrite Hid.
Qed.

(** ** Closing and reopening *)

Lemma LogFile_Close_clean lf w : clean_file lf → ∃ lf', LogFile_Close lf w = ((lf', None), w).
Proof.
  intros [He Hb]. unfold LogFile_Close, Writer_Flush. rewrite He, Hb.
  destruct (lf_readOnly lf); simpl; eauto.
Qed.

Lemma Close_loop_clean lfs w : Forall clean_file lfs → Close_loop lfs w = (None, w).
Proof.
  induction 1 as [|lf lfs Hlf _ IH]; [done|]. cbn [Close_loop].
  destruct (LogFile_Close_clean lf w Hlf) as [lf' ->]. done.
Qed.

(** With nothing buffered, [Close] succeeds and leaves the disk as it is. *)
Lemma Close_clean bc fs kd o :
  log_inv bc fs kd →
  Close bc {| files := fs; oracle := o |} = (None, {| files := fs; oracle := o |}).
Proof.
  intros Hinv. unfold Close.
  destruct (LogFile_Close_clean (activeFile bc) {| files := fs; oracle := o |}
              (li_clean _ _ _ Hinv)) as [lf' ->].
  apply Close_loop_clean. apply Forall_forall. intros lf Hin.
  apply list_elem_of_fmap in Hin as ([id lf0] & -> & Hin).
  apply elem_of_map_to_list in Hin. by destruct (li_ro _ _ _ Hinv _ _ Hin) as (_ & ? & _).
Qed.

(** Whatever [Close] does when it returns no error, the disk is the same. *)
Lemma Close_files bc fs kd o w' :
  log_inv bc fs kd → Close bc {| files := fs; oracle := o |} = (None, w') → files w' = fs.
Proof. intros Hinv. rewrite (Close_clean _ _ _ _ Hinv). by intros [= <-]. Qed.

Lemma loadFiles_ro w kd ro :
  loadFiles w = Ok (kd, ro) →
  ∀ id, (is_Some (ro !! id) ↔ id ∈ fileIDs (files w)) ∧
        ∀ lf, ro !! id = Some lf → lf_id lf = id ∧ clean_file lf.
Proof.
  intros Hl id. split; [split|].
  - intros [lf Hlf].
    destruct (loadFiles_loop_ro _ _ _ _ _ _ Hl id lf Hlf) as [H|[H _]]; [done|done].
  - intros Hin. eapply loadFiles_loop_ro_dom; [exact Hl|by left].
  - intros lf Hlf.
    destruct (loadFiles_loop_ro _ _ _ _ _ _ Hl id lf Hlf) as [H|(_ & c & _ & ->)]; done.
Qed.

(** [Open] on the directory of a database written without faults: the key
    directory is the replayed one, and the new active file is a new, empty
    segment after the last. *)
Lemma log_inv_Open bc fs kd cfg o bc' w' :
  log_inv bc fs kd → lf_id (activeFile bc) < 2 ^ 32 - 1 →
  Open cfg {| files := fs; oracle := o |} = (Ok bc', w') →
  keyDir bc' = kd ∧ log_inv bc' (files w') kd ∧
  files w' = <[lf_id (activeFile bc) + 1 := []]> fs ∧
  lf_id (activeFile bc') = lf_id (activeFile bc) + 1 ∧
  (∀ id, is_Some (readOnlyFiles bc' !! id) ↔ id ∈ fileIDs fs).
Proof.
  intros Hinv Hlt HOpen.
  apply Open_spec in HOpen as (_ & _ & Hload & Hact & Hfs & _). cbn [files] in *.
  destruct (li_replay _ _ _ Hinv) as [ro Hrep].
  rewrite loadFiles_oracle, Hrep in Hload. injection Hload as <- ->.
  pose proof (loadFiles_ro _ _ _ Hrep) as Hro. cbn [files] in Hro.
  destruct (log_inv_active_in _ _ _ Hinv) as [_ Hr].
  destruct (log_inv_next_fresh _ _ _ Hinv Hlt) as [Hfresh _].
  destruct (li_last _ _ _ Hinv) as [init Hlast].
  assert (Hmax : maxID (readOnlyFiles bc') = lf_id (activeFile bc)).
  { apply maxID_unique; [lia| |right].
    - intros id Hid. apply Hro in Hid. by eapply fileIDs_last_max.
    - apply Hro. rewrite Hlast, elem_of_app. right. by left. }
  rewrite Hmax, (u32_small (lf_id (activeFile bc) + 1)) in Hact, Hfs by lia.
  assert (Hfs' : files w' = <[lf_id (activeFile bc) + 1 := []]> fs).
  { rewrite Hfs. unfold created. by rewrite Hfresh. }
  assert (Hact' : activeFile bc' = {| lf_id := lf_id (activeFile bc) + 1;
             lf_writer := clean_writer; lf_size := 0; lf_readOnly := false |}).
  { rewrite Hact. unfold file_content. by rewrite Hfresh. }
  split; [done|]. split; [|split; [done|split; [by rewrite Hact'|apply Hro]]].
  rewrite Hfs'. apply (log_inv_new_segment bc fs _ bc' Hinv Hlt Hact').
  intros id lf Hlf. destruct (Hro id) as [Hdom Hlfs].
  destruct (Hlfs lf Hlf). split; [done|]. split; [done|]. apply Hdom. by eexists.
Qed.

(** Without faults, [Open] succeeds if [loadFiles] does. *)
Lemma Open_no_fault cfg fs kd ro :
  loadFiles {| files := fs; oracle := [] |} = Ok (kd, ro) →
  ∃ bc w', Open cfg {| files := fs; oracle := [] |} = (Ok bc, w').
Proof.
  intros Hl. unfold Open. rewrite Hl. unfold createActiveFile, NewLogFile, next_outcome.
  cbn [oracle]. eauto.
Qed.

Lemma log_inv_Open_empty cfg o bc w' :
  Open cfg {| files := ∅; oracle := o |} = (Ok bc, w') →
  keyDir bc = ∅ ∧ log_inv bc (files w') ∅ ∧ lf_id (activeFile bc) = 1.
Proof.
  intros HOpen. apply Open_spec in HOpen as (_ & _ & Hload & Hact & Hfs & _).
  cbn [files] in *. rewrite loadFiles_oracle in Hload.
  assert (Hl : loadFiles {| files := ∅; oracle := [] |} = Ok (∅, ∅)) by done.
  rewrite Hl in Hload. injection Hload as Hkd Hro. rewrite <- Hro in Hact, Hfs.
  rewrite maxID_empty in Hact, Hfs. change (u32 (0 + 1)) with 1 in Hact, Hfs.
  assert (Hfs' : files w' = {[ 1 := [] ]}) by (by rewrite Hfs).
  split; [done|]. split; [|by rewrite Hact]. rewrite Hfs'.
  split; rewrite ?Hact, <- ?Hro;
    cbn [activeFile lf_id lf_writer lf_size lf_readOnly]; try done.
  - by exists [].
  - exists []. split; [constructor|done].
  - by eexists.
Qed.

Lemma agree_readable bc fs m : ro_ids_ok bc → agree bc fs m → readable bc fs.
Proof.
  intros Hids Hag k e He. specialize (Hag k). destruct (m !! k) as [v|].
  - apply Get_Ok in Hag as (e' & He' & Hres & Hread); [|done].
    rewrite He in He'. injection He' as <-. split; [done|by exists v].
  - apply Get_not_found in Hag. congruence.
Qed.

Lemma op_fits_value_fits o : op_fits o → value_fits o.
Proof. destruct o; simpl; tauto. Qed.

(** What holds of every database written without faults: its key directory
    is the replay of its directory, and its entries can be read. *)
Lemma written_inv bc fs :
  written bc fs → log_inv bc fs (keyDir bc) ∧ ∃ m, agree bc fs m.
Proof.
  induction 1 as [cfg faults bc w' HOpen
                 |bc fs o faults bc' w' _ [Hinv [m Hag]] Hfit Hlt Hrun
                 |bc fs faults w1 cfg faults' bc' w' _ [Hinv _] Hlt HClose HOpen].
  - destruct (log_inv_Open_empty _ _ _ _ HOpen) as (Hkd & Hinv & _).
    split; [by rewrite Hkd|].
    apply Open_spec in HOpen as ((_ & _ & Hids) & Hr & _).
    eexists. by apply readable_agree.
  - pose proof (log_inv_engine_ok _ _ _ Hinv) as Hok.
    split.
    + destruct o as [now key value|now key|]; simpl in Hrun, Hfit.
      * destruct Hfit as [Hk Hv].
        destruct (log_inv_Put _ _ _ _ _ _ _ _ _ Hinv Hlt Hk (proj2 Hv) Hrun)
          as (e & Hkd & _ & Hinv').
        rewrite decide_False in Hinv'; [by rewrite Hkd|].
        intros ->. unfold len in Hv. simpl in Hv. lia.
      * destruct (log_inv_Delete _ _ _ _ _ _ _ _ Hinv Hfit Hrun) as (Hkd & _ & _ & Hinv').
        by rewrite Hkd.
      * destruct (log_inv_Sync _ _ _ _ _ _ Hinv Hrun) as (Hkd & _ & _ & Hinv').
        by rewrite Hkd.
    + destruct (run_op_spec o bc {| files := fs; oracle := faults |} _ _ _ m
                  Hok Hag (op_fits_value_fits _ Hfit) Hrun) as [_ Hag'].
      eauto.
  - rewrite (Close_files _ _ _ _ _ Hinv HClose) in HOpen.
    destruct (log_inv_Open _ _ _ _ _ _ _ Hinv Hlt HOpen) as (Hkd & Hinv' & _).
    split; [by rewrite Hkd|].
    apply Open_spec in HOpen as ((_ & _ & Hids) & Hr & _).
    eexists. by apply readable_agree.
Qed.

(** Reopening a database written without faults gives back the key
    directory, and every [Get] answers as before the close. *)
Theorem reopen_preserves_keyDir bc fs faults w1 cfg faults' bc' w' :
  written bc fs → lf_id (activeFile bc) < 2 ^ 32 - 1 →
  Close bc {| files := fs; oracle := faults |} = (None, w1) →
  Open cfg {| files := files w1; oracle := faults' |} = (Ok bc', w') →
  keyDir bc' = keyDir bc ∧ (∀ k, k ∈ Keys bc' ↔ k ∈ Keys bc) ∧
  ∀ k, Get k bc' (files w') = Get k bc fs.
Proof.
  intros Hw Hlt HClose HOpen. destruct (written_inv _ _ Hw) as [Hinv [m Hag]].
  rewrite (Close_files _ _ _ _ _ Hinv HClose) in HOpen.
  destruct (log_inv_Open _ _ _ _ _ _ _ Hinv Hlt HOpen) as (Hkd & Hinv' & Hfs & _).
  split; [done|]. split; [intros k; by rewrite !Keys_elem_of, Hkd|].
  apply Open_spec in HOpen as ((_ & _ & Hids') & Hr' & _).
  pose proof (log_inv_engine_ok _ _ _ Hinv) as (_ & _ & Hids).
  destruct (log_inv_next_fresh _ _ _ Hinv Hlt) as [Hfresh _].
  intros k. specialize (Hag k). rewrite Hag. destruct (m !! k) as [v|].
  - apply Get_Ok in Hag as (e & He & _ & Hread); [|done].
    apply Get_Ok; [done|]. exists e. split; [by rewrite Hkd|].
    split; [apply (Hr' k e); by rewrite Hkd|].
    replace (file_content (files w') (FileID e)) with (file_content fs (FileID e)); [done|].
    rewrite Hfs. unfold file_content.
    destruct (decide (FileID e = lf_id (activeFile bc) + 1)) as [->|Hne].
    + by rewrite lookup_insert_eq, Hfresh.
    + by rewrite lookup_insert_ne.
  - apply Get_not_found. rewrite Hkd. by apply Get_not_found in Hag.
Qed.

(** Without faults, closing and reopening such a database succeeds. *)
Lemma reopen_succeeds bc fs cfg :
  written bc fs →
  Close bc {| files := fs; oracle := [] |} = (None, {| files := fs; oracle := [] |}) ∧
  ∃ bc' w', Open cfg {| files := fs; oracle := [] |} = (Ok bc', w').
Proof.
  intros Hw. destruct (written_inv _ _ Hw) as [Hinv _].
  split; [by eapply Close_clean|].
  destruct (li_replay _ _ _ Hinv) as [ro Hl]. by eapply Open_no_fault.
Qed.

(** ** Which files an operation touches *)

Lemma maxID_insert_value (ro : gmap Z LogFile) i x y :
  maxID (<[i := x]> ro) = maxID (<[i := y]> ro).
Proof.
  destruct (maxID_spec (<[i := y]> ro)) as (H0 & Hub & Hatt).
  apply maxID_unique; [done| |].
  - intros id Hid. apply Hub. destruct (decide (id = i)) as [->|Hne].
    + by rewrite lookup_insert_eq.
    + by rewrite lookup_insert_ne in Hid |- * by done.
  - destruct Hatt as [?|Hatt]; [by left|right].
    destruct (decide (maxID (<[i := y]> ro) = i)) as [->|Hne].
    + by rewrite lookup_insert_eq.
    + by rewrite lookup_insert_ne in Hatt |- * by done.
Qed.

Lemma max_segment_id_ge bc : lf_id (activeFile bc) ≤ max_segment_id bc ∧ 0 ≤ max_segment_id bc.
Proof.
  unfold max_segment_id. split; [|by destruct (maxID_spec
    (<[lf_id (activeFile bc) := activeFile bc]> (readOnlyFiles bc))) as [? _]].
  apply maxID_ge. by rewrite lookup_insert_eq.
Qed.

Lemma touch_refl bc fs : touch bc fs bc fs.
Proof. split; [by left|]. split; [done|]. split; intros j Hj; by left. Qed.

(** Bytes appended to the active file, which stays the active file. *)
Lemma touch_appends bc fs lf' fs' x :
  appends (lf_id (activeFile bc)) x fs fs' → lf_id lf' = lf_id (activeFile bc) →
  touch bc fs (with_activeFile bc lf') fs'.
Proof.
  intros Hx Hid. split; [by left|]. split; [|split].
  - intros j Hj _. by eapply appends_lookup_ne.
  - intros j Hj. left. by apply (appends_is_Some _ _ _ _ _ Hx).
  - intros j Hj. by left.
Qed.

Lemma touch_flush bc fs lf' fs' err :
  flush_post (activeFile bc) fs lf' fs' err → touch bc fs (with_activeFile bc lf') fs'.
Proof. intros (x & Hx & Hid & _). by eapply touch_appends. Qed.

(** Two steps on the same active file. *)
Lemma touch_trans_same bc fs bc1 fs1 bc2 fs2 :
  touch bc fs bc1 fs1 → lf_id (activeFile bc1) = lf_id (activeFile bc) →
  readOnlyFiles bc1 = readOnlyFiles bc →
  touch bc1 fs1 bc2 fs2 → touch bc fs bc2 fs2.
Proof.
  intros (_ & H1 & H1' & _) Hid Hro (Ha & H2 & H2' & H2'').
  assert (Hm : max_segment_id bc1 = max_segment_id bc).
  { unfold max_segment_id. rewrite Hid, Hro. apply maxID_insert_value. }
  rewrite Hm, Hid, ?Hro in *. split; [done|]. split; [|split].
  - intros j Hj Hn. rewrite H2, H1; done.
  - intros j Hj. destruct (H2' j Hj) as [Hj1|?]; [|by right].
    destruct (H1' j Hj1) as [?|[-> Hc]]; [by left|].
    right. split; [done|]. destruct Ha as [Ha|Ha]; [|done]. congruence.
  - done.
Qed.

Lemma rotateActiveFile_touch bc w bc' err w' :
  rotateActiveFile bc w = ((bc', err), w') → touch bc (files w) bc' (files w').
Proof.
  unfold rotateActiveFile. destruct (LogFile_Sync _ w) as [[lf1 e1] w1] eqn:Hs.
  apply LogFile_Sync_spec in Hs. pose proof (touch_flush _ _ _ _ _ Hs) as Ht.
  destruct e1 as [e1|]; [by intros [= <- <- <-]|].
  unfold createActiveFile.
  cbn [readOnlyFiles with_readOnlyFiles with_activeFile activeFile LogFile_ID].
  destruct Hs as (x & Hx & Hid & _).
  assert (Hnext : u32 (maxID (<[lf_id lf1 := lf1]> (readOnlyFiles bc)) + 1)
                  = u32 (max_segment_id bc + 1)).
  { unfold max_segment_id. rewrite Hid. f_equal. f_equal. apply maxID_insert_value. }
  unfold LogFile_ID. rewrite Hnext. destruct (NewLogFile _ false w1) as [r w2] eqn:Hn.
  apply NewLogFile_rw_spec in Hn.
  assert (Hro : ∀ j, is_Some (<[lf_id lf1 := lf1]> (readOnlyFiles bc) !! j) →
                     is_Some (readOnlyFiles bc !! j) ∨ j = lf_id (activeFile bc)).
  { intros j. rewrite Hid. destruct (decide (j = lf_id (activeFile bc))) as [->|Hne]; [by right|].
    rewrite lookup_insert_ne by done. by left. }
  destruct Ht as (_ & H1 & H1' & _).
  destruct r as [lf2|e2]; intros [= <- <- <-].
  - destruct Hn as [-> Hfs]. split; [by right|]. rewrite Hfs. split; [|split; [|done]].
    + intros j Hj Hne. rewrite created_lookup_ne by done. by apply H1.
    + intros j. destruct (decide (j = u32 (max_segment_id bc + 1))) as [->|Hne]; [by right|].
      rewrite created_lookup_ne by done. intros Hj. left.
      destruct (H1' j Hj) as [?|[? _]]; done.
  - rewrite Hn. split; [by left|]. split; [done|]. split; [|done].
    intros j Hj. destruct (H1' j Hj) as [?|[Hj' Hc]]; [by left|right].
    split; [done|exact Hc].
Qed.

Lemma touch_then_appends bc fs bc1 fs1 bc2 fs2 x :
  touch bc fs bc1 fs1 → appends (lf_id (activeFile bc1)) x fs1 fs2 →
  lf_id (activeFile bc2) = lf_id (activeFile bc1) →
  readOnlyFiles bc2 = readOnlyFiles bc1 →
  touch bc fs bc2 fs2.
Proof.
  intros (Ha & H1 & H1' & H1'') Hx Hid Hro. unfold touch. rewrite Hid, Hro.
  split; [done|]. split; [|split; [|done]].
  - intros j Hj Hn. rewrite <- H1 by done. eapply appends_lookup_ne; [done|].
    destruct Ha as [-> | ->]; done.
  - intros j Hj. apply H1'. by apply (appends_is_Some _ _ _ _ _ Hx).
Qed.

Lemma LogFile_Write_appends lf entry w lf' r w' :
  LogFile_Write lf entry w = ((lf', r), w') →
  ∃ x, appends (lf_id lf) x (files w) (files w') ∧ lf_id lf' = lf_id lf.
Proof.
  destruct (lf_readOnly lf) eqn:Hro.
  - unfold LogFile_Write. rewrite Hro. intros [= <- _ <-].
    exists []. split; [apply appends_nil|done].
  - intros Hw. apply LogFile_Write_spec in Hw as (x & Hx & Hid & _); [|done]. eauto.
Qed.

Lemma sync_or_flush_appends bc w bc' err w' :
  sync_or_flush bc w = ((bc', err), w') →
  ∃ x, appends (lf_id (activeFile bc)) x (files w) (files w') ∧
       lf_id (activeFile bc') = lf_id (activeFile bc) ∧
       readOnlyFiles bc' = readOnlyFiles bc.
Proof.
  intros Hs. apply sync_or_flush_spec in Hs as (lf' & e0 & -> & (x & Hx & Hid & _) & _).
  exists x. done.
Qed.

(** The end of [Put] and [Delete] touches the active file only. *)
Lemma append_touch bc fs bc1 w1 entry lf2 r w2 :
  touch bc fs bc1 (files w1) →
  LogFile_Write (activeFile bc1) entry w1 = ((lf2, r), w2) →
  touch bc fs (with_activeFile bc1 lf2) (files w2) ∧
  ∀ bc3 err w3, sync_or_flush (with_activeFile bc1 lf2) w2 = ((bc3, err), w3) →
    touch bc fs bc3 (files w3) ∧ ∀ kd, touch bc fs (with_keyDir bc3 kd) (files w3).
Proof.
  intros Ht Hw. apply LogFile_Write_appends in Hw as (x & Hx & Hid).
  assert (Ht2 : touch bc fs (with_activeFile bc1 lf2) (files w2)).
  { by eapply touch_then_appends. }
  split; [done|]. intros bc3 err w3 Hs.
  apply sync_or_flush_appends in Hs as (y & Hy & Hid3 & Hro3).
  assert (Ht3 : touch bc fs bc3 (files w3)) by (by eapply touch_then_appends).
  split; [done|]. intros kd. destruct Ht3 as (? & ? & ? & ?). done.
Qed.

Lemma rotate_if_full_touch bc w bc' err w' :
  rotate_if_full bc w = ((bc', err), w') → touch bc (files w) bc' (files w').
Proof.
  unfold rotate_if_full. case_match.
  - apply rotateActiveFile_touch.
  - intros [= <- <- <-]. apply touch_refl.
Qed.

Lemma run_op_touch o bc w bc' err w' :
  run_op o bc w = ((bc', err), w') → touch bc (files w) bc' (files w').
Proof.
  destruct o as [now key value|now key|]; simpl.
  - unfold Put. fold (rotate_if_full bc w).
    destruct (rotate_if_full bc w) as [[bc1 e1] w1] eqn:Hrot.
    apply rotate_if_full_touch in Hrot.
    destruct e1; [by intros [= <- <- <-]|].
    destruct (LogFile_Write _ _ w1) as [[lf2 r] w2] eqn:Hw.
    destruct (append_touch _ _ _ _ _ _ _ _ Hrot Hw) as [Ht2 Ht3].
    destruct r; [|by intros [= <- <- <-]].
    destruct (sync_or_flush _ w2) as [[bc3 e3] w3] eqn:Hs.
    destruct (Ht3 _ _ _ eq_refl) as [Ht3' Ht4].
    destruct e3; intros [= <- <- <-]; [done|apply Ht4].
  - unfold Delete. destruct (keyDir bc !! key).
    2: { intros [= <- <- <-]. apply touch_refl. }
    destruct (LogFile_Write _ _ w) as [[lf2 r] w2] eqn:Hw.
    destruct (append_touch _ _ _ _ _ _ _ _ (touch_refl bc (files w)) Hw) as [Ht2 Ht3].
    destruct r; [|by intros [= <- <- <-]].
    destruct (sync_or_flush _ w2) as [[bc3 e3] w3] eqn:Hs.
    destruct (Ht3 _ _ _ eq_refl) as [Ht3' Ht4].
    destruct e3; intros [= <- <- <-]; [done|apply Ht4].
  - unfold Sync. destruct (LogFile_Sync _ w) as [[lf e] w1] eqn:Hs.
    intros [= <- <- <-]. apply LogFile_Sync_spec in Hs. by eapply touch_flush.
Qed.

(** ** Segments along a run *)

Lemma run_op_segments_known o bc w bc' err w' :
  engine_ok bc (files w) → segments_known bc (files w) →
  run_op o bc w = ((bc', err), w') → segments_known bc' (files w').
Proof.
  intros Hok Hk Hrun. pose proof (run_op_touch _ _ _ _ _ _ Hrun) as (_ & _ & H3 & _).
  assert (Hres : ∀ id, resolves bc id → resolves bc' id).
  { destruct o as [now key value|now key|]; simpl in Hrun.
    - by destruct (Put_spec _ _ _ _ _ _ _ _ Hok Hrun) as [(_ & _ & _ & ?) _].
    - by destruct (Delete_spec _ _ _ _ _ _ _ Hok Hrun) as [(_ & _ & _ & ?) _].
    - by destruct (Sync_spec _ _ _ _ _ Hok Hrun) as [(_ & _ & _ & ?) _]. }
  intros j Hj Hr. destruct (H3 j Hj) as [Hj0|[-> Hn]].
  - apply Hres. by apply Hk.
  - by left.
Qed.

Lemma Open_segments_known cfg w bc w' :
  Open cfg w = (Ok bc, w') → segments_known bc (files w').
Proof.
  intros HOpen. apply Open_spec in HOpen as (_ & _ & Hl & Hact & Hfs & _).
  intros j Hj Hr. rewrite Hact. cbn [lf_id].
  destruct (decide (j = u32 (maxID (readOnlyFiles bc) + 1))) as [->|Hne]; [by left|right].
  rewrite Hfs, created_lookup_ne in Hj by done.
  apply (loadFiles_ro _ _ _ Hl). by apply elem_of_fileIDs.
Qed.

Lemma reachable_segments_known bc fs m : reachable bc fs m → segments_known bc fs.
Proof.
  induction 1 as [cfg w bc w' HOpen|bc fs m o faults bc' err w' Hr IH Hfit Hrun].
  - by eapply Open_segments_known.
  - apply reachable_inv in Hr as [Hok _].
    by apply (run_op_segments_known o bc {| files := fs; oracle := faults |} bc' err w').
Qed.

(** A segment below the active one is never written again, and stays below
    the active one. *)
Lemma runs_sealed bc fs bc' fs' old :
  runs bc fs bc' fs' → old < lf_id (activeFile bc) →
  fs' !! old = fs !! old ∧ old < lf_id (activeFile bc').
Proof.
  induction 1 as [|bc1 fs1 o faults bc2 err w2 _ IH Hroom Hrun]; [done|].
  intros Hold. destruct (IH Hold) as [Heq Hlt].
  pose proof (run_op_touch _ _ _ _ _ _ Hrun) as (Ha & H1 & _). cbn [files] in *.
  destruct (max_segment_id_ge bc1) as [Hge H0].
  rewrite (u32_small (max_segment_id bc1 + 1)) in Ha, H1 by lia.
  split; [|destruct Ha as [-> | ->]; lia].
  rewrite <- Heq. apply H1; lia.
Qed.
(** * The properties of the specification *)

Lemma ex_reachable0 : reachable ex_bc0 ex_fs0 (contents ex_bc0 ex_fs0).
Proof.
  apply (reachable_Open (Some ex_cfg) ex_w0 ex_bc0 {| files := ex_fs0; oracle := [] |}).
  vm_compute. reflexivity.
Qed.

Lemma ex_reachable1 :
  reachable ex_bc1 ex_fs1 (<["dog" := bytes "v1"]> (contents ex_bc0 ex_fs0)).
Proof.
  apply (reachable_step ex_bc0 ex_fs0 _ (OpPut 100 "dog" (bytes "v1")) []
           ex_bc1 None ex_put1.2).
  - apply ex_reachable0.
  - vm_compute. reflexivity.
  - vm_compute. reflexivity.
Qed.


Lemma ex_reachable4 :
  reachable ex_bc4 (files ex_del4.2)
    (delete "cat" (delete "dog"
       (<["cat" := bytes "v2"]> (<["dog" := bytes "v1"]> (contents ex_bc0 ex_fs0))))).
Proof.
  apply (reachable_step ex_bc3 (files ex_del3.2) _ (OpDelete 103 "cat") []
           ex_bc4 None ex_del4.2); [|done|vm_compute; reflexivity].
  apply (reachable_step ex_bc2 (files ex_put2.2) _ (OpDelete 102 "dog") []
           ex_bc3 None ex_del3.2); [|done|vm_compute; reflexivity].
  apply (reachable_step ex_bc1 ex_fs1 _ (OpPut 101 "cat" (bytes "v2")) []
           ex_bc2 None ex_put2.2); [apply ex_reachable1|by vm_compute|].
  vm_compute. reflexivity.
Qed.


(** C1 as stated fails: a segment whose second record is cut after 2 bytes
    makes [Open] return an error. *)
Lemma C1_counterexample :
  (Open None (ex_truncated 2)).1
  = Err (ErrWrap "failed to load existing files" ErrUnexpectedEOF).
Proof. vm_compute. reflexivity. Qed.

(** C1, amended. Let the most recently written segment [id] hold whole
    records [rs] followed by the first [n] bytes of a record [r].  If the
    cut is on a field boundary (after the 4th, 8th or 12th byte of the
    header, or right after the key), recovery succeeds, the records [rs] are
    replayed and [r] is not applied; if the cut is inside a field, [Open]
    fails with the unexpected-EOF error of [ReadEntry]. *)
Theorem C1_truncated_tail fs kd0 ro0 id rs r n cfg :
  loadFiles {| files := fs; oracle := [] |} = Ok (kd0, ro0) →
  0 ≤ id < 2 ^ 32 → (∀ j, j ∈ fileIDs fs → j < id) →
  Forall wf_entry rs → wf_entry r → (0 < n < length (encode r))%nat →
  let w := {| files := <[id := encodeAll rs ++ take n (encode r)]> fs; oracle := [] |} in
  if on_field_boundary r n
  then ∃ bc w', Open cfg w = (Ok bc, w') ∧ keyDir bc = replay id 0 rs kd0
  else (Open cfg w).1 = Err (ErrWrap "failed to load existing files" ErrUnexpectedEOF).
Proof.
  intros Hload Hid Hlast Hrs Hr Hn w. subst w.
  set (c := encodeAll rs ++ take n (encode r)). set (fs' := <[id := c]> fs).
  assert (Hfid : fileIDs fs' = fileIDs fs ++ [id]) by (by apply fileIDs_insert_last).
  assert (Hc : fs' !! id = Some c) by (by unfold fs'; rewrite lookup_insert_eq).
  assert (Hrebuild : ∀ kd, rebuildKeyDir fs' (readOnlyLogFile id c) kd
            = if on_field_boundary r n then Ok (replay id 0 rs kd) else Err ErrUnexpectedEOF).
  { intros kd. unfold rebuildKeyDir. cbn [lf_id readOnlyLogFile LogFile_ID].
    replace (file_content fs' id) with c by (by unfold file_content; rewrite Hc).
    pose proof (rebuildKeyDir_loop_log (S (length c)) [] rs (take n (encode r)) id kd
                  (if on_field_boundary r n then EOF else ErrUnexpectedEOF) Hrs) as H.
    cbn [app] in H. fold c in H. change (len []) with 0 in H. rewrite H.
    - by destruct (on_field_boundary r n).
    - pose proof (encodeAll_length_ge rs). unfold c. rewrite length_app. lia.
    - rewrite Z.add_0_l. by apply ReadEntry_truncated. }
  assert (Hl : loadFiles {| files := fs'; oracle := [] |}
            = if on_field_boundary r n
              then Ok (replay id 0 rs kd0, <[id := readOnlyLogFile id c]> ro0)
              else Err ErrUnexpectedEOF).
  { rewrite (loadFiles_last _ (fileIDs fs) id c) by done.
    rewrite (loadFiles_loop_ext _ {| files := fs; oracle := [] |}).
    2: { intros j Hj. cbn [files]. unfold fs'. rewrite lookup_insert_ne; [done|].
         specialize (Hlast _ Hj). lia. }
    unfold loadFiles in Hload. cbn [files] in Hload. rewrite Hload.
    rewrite Hrebuild. by destruct (on_field_boundary r n). }
  destruct (on_field_boundary r n).
  - destruct (Open_no_fault cfg _ _ _ Hl) as (bc & w' & HOpen).
    exists bc, w'. split; [done|].
    apply Open_spec in HOpen as (_ & _ & Hl' & _).
    rewrite Hl in Hl'. by injection Hl' as <- _.
  - unfold Open. by rewrite Hl.
Qed.

Lemma C1_truncated_tail_witness :
  loadFiles {| files := ∅; oracle := [] |} = Ok (∅, ∅) ∧ 0 ≤ 1 < 2 ^ 32 ∧
  (∀ j, j ∈ fileIDs ∅ → j < 1) ∧
  Forall wf_entry [putEntry 1 "a" (bytes "b")] ∧ wf_entry (putEntry 2 "c" (bytes "d")) ∧
  (0 < 4 < length (encode (putEntry 2 "c" (bytes "d"))))%nat ∧
  ∃ bc w', Open None (ex_truncated 4) = (Ok bc, w') ∧
           keyDir bc = replay 1 0 [putEntry 1 "a" (bytes "b")] ∅.
Proof.
  assert (H1 : Forall wf_entry [putEntry 1 "a" (bytes "b")]).
  { repeat constructor; vm_compute; congruence. }
  assert (H2 : wf_entry (putEntry 2 "c" (bytes "d"))) by (vm_compute; repeat split; congruence).
  assert (H3 : ∀ j, j ∈ fileIDs ∅ → j < 1).
  { intros j Hj. rewrite fileIDs_empty in Hj. by apply elem_of_nil in Hj. }
  assert (H4 : 0 ≤ 1 < 2 ^ 32) by lia.
  assert (H5 : (0 < 4 < length (encode (putEntry 2 "c" (bytes "d"))))%nat) by (vm_compute; lia).
  do 5 (split; [assumption || reflexivity|]). split; [exact H5|].
  exact (C1_truncated_tail ∅ ∅ ∅ 1 [putEntry 1 "a" (bytes "b")] (putEntry 2 "c" (bytes "d"))
           4%nat None eq_refl H4 H3 H1 H2 H5).
Defined.

(** C2 fails on the code for a [Put] of an empty value: on a fresh database,
    after a [Put] of the key "k" with the empty value the key is live and
    [Get] returns the empty value; after [Close] and [Open] the key is gone.
    ([reopen_preserves_keyDir] is the property for the databases that hold
    no empty value.) *)
Theorem C2_empty_value_lost_on_reopen :
  Open (Some ex_cfg) ex_w0 = (Ok ex_bc0, {| files := ex_fs0; oracle := [] |}) ∧
  Put 100 "k" [] ex_bc0 {| files := ex_fs0; oracle := [] |} = ex_empty_put ∧
  ex_empty_put.1.2 = None ∧
  Keys ex_empty_put.1.1 = ["k"] ∧
  Get "k" ex_empty_put.1.1 (files ex_empty_put.2) = Ok [] ∧
  (Close ex_empty_put.1.1 ex_empty_put.2).1 = None ∧
  Open (Some ex_cfg) (Close ex_empty_put.1.1 ex_empty_put.2).2 = ex_empty_reopen ∧
  ∃ bc, ex_empty_reopen.1 = Ok bc ∧ Keys bc = [] ∧
        Get "k" bc (files ex_empty_reopen.2) = Err (key_not_found "k").
Proof.
  do 7 (split; [vm_compute; reflexivity|]).
  eexists. split; [vm_compute; reflexivity|]. split; vm_compute; reflexivity.
Qed.

(** The scenario of the specification: two keys put, one deleted, the
    database closed and reopened. *)
Example reopen_scenario :
  ∃ bc w, Open (Some ex_cfg) (Close ex_bc3 ex_del3.2).2 = (Ok bc, w) ∧
    Get "dog" bc (files w) = Err (key_not_found "dog") ∧
    Get "cat" bc (files w) = Ok (bytes "v2") ∧ Keys bc = ["cat"] ∧
    keyDir bc = keyDir ex_bc3.
Proof. eexists _, _. split; [vm_compute; reflexivity|]. vm_compute. done. Qed.



(** Why the length of the value must fit: the size field of the record holds
    the length modulo [2^32]. *)
Remark putEntry_oversize now key value :
  len value = 2 ^ 32 → le_ValueSize (putEntry now key value) = 0.
Proof. intros H. cbn [putEntry le_ValueSize]. by rewrite H. Qed.

(** C4. Decoding at the offset where a record was encoded gives back the
    same record (timestamp, sizes, key and value) and the next offset
    [offset + 12 + key_length + value_length]; the record may have an empty
    key, an empty value, or be a tombstone, and anything may precede and
    follow it in the file. *)
Theorem C4_decode_encode (e : LogEntry) (pre post : list byte) :
  wf_entry e →
  ReadEntry (pre ++ encode e ++ post) (len pre)
  = Ok (e, len pre + 12 + len (le_Key e) + len (le_Value e)).
Proof. apply ReadEntry_encode. Qed.

Lemma C4_decode_encode_witness :
  wf_entry ex_tombstone ∧
  ReadEntry (bytes "xyz" ++ encode ex_tombstone ++ bytes "rest") (len (bytes "xyz"))
  = Ok (ex_tombstone,
        len (bytes "xyz") + 12 + len (le_Key ex_tombstone) + len (le_Value ex_tombstone)).
Proof.
  split.
  - vm_compute. repeat split; congruence.
  - apply (C4_decode_encode ex_tombstone (bytes "xyz") (bytes "rest")).
    vm_compute. repeat split; congruence.
Defined.

(** What [LogFile.Write] sends to the file is this encoding: after a write
    and a flush without error the record is decoded at the old end of the
    file, and the next offset is the new tracked size. *)
Lemma Write_Flush_ReadEntry lf entry w lf1 vp w1 lf2 w2 :
  lf_readOnly lf = false → writer_ok lf (files w) → wf_entry entry →
  LogFile_Write lf entry w = ((lf1, Ok vp), w1) →
  LogFile_Flush lf1 w1 = ((lf2, None), w2) →
  LogFile_ReadEntry (files w2) lf2 (lf_size lf) = Ok (entry, lf_size lf2).
Proof.
  intros Hro Hok Hwf Hw Hf. apply LogFile_Write_spec in Hw; [|done].
  apply LogFile_Flush_spec in Hf.
  assert (He2 : w_err (lf_writer lf2) = None).
  { destruct Hf as (_ & _ & _ & _ & Hro2 & _ & _ & Hfin).
    destruct Hw as (_ & _ & _ & Hro1 & _). apply Hfin; [congruence|done]. }
  destruct (write_flush_ok _ _ _ _ _ _ _ _ _ Hro Hok Hw Hf He2)
    as (Happ & _ & Hsz & Hex & Hsz2 & Hid2 & _).
  unfold LogFile_ReadEntry. rewrite Hid2, Hsz2, Hsz.
  rewrite (appends_content _ _ _ _ Happ Hex).
  rewrite <- (app_nil_r (encode entry)) at 1.
  rewrite ReadEntry_encode by done. f_equal. f_equal.
  unfold len. rewrite length_app. pose proof (encode_length entry). unfold len in *. lia.
Qed.



(** On a fresh database the map starts empty, so that it holds exactly the
    values of the operations that returned without error. *)
Lemma contents_Open_empty cfg faults bc w' :
  Open cfg {| files := ∅; oracle := faults |} = (Ok bc, w') →
  contents bc (files w') = ∅.
Proof.
  intros HOpen. destruct (log_inv_Open_empty _ _ _ _ HOpen) as (Hkd & _).
  unfold contents. rewrite Hkd. apply omap_empty.
Qed.

(** C6. After a [Delete(k)] of a live key that returns without error,
    [Get(k)] reports that the key is not found and [Keys()] does not list
    [k]. *)
Theorem C6_delete_then_not_found bc w now k bc' w' :
  is_Some (keyDir bc !! k) →
  Delete now k bc w = ((bc', None), w') →
  Get k bc' (files w') = Err (key_not_found k) ∧ k ∉ Keys bc'.
Proof.
  intros _ HDel. apply Delete_ok_keyDir in HDel as [_ Hkd].
  assert (Hk : keyDir bc' !! k = None) by (by rewrite Hkd, lookup_delete_eq).
  split; [by apply Get_not_found|].
  rewrite Keys_elem_of, Hk. by intros [? ?].
Qed.

Lemma C6_delete_then_not_found_witness :
  is_Some (keyDir ex_bc2 !! "dog") ∧
  Delete 102 "dog" ex_bc2 ex_put2.2 = ((ex_bc3, None), ex_del3.2) ∧
  Get "dog" ex_bc3 (files ex_del3.2) = Err (key_not_found "dog") ∧ "dog" ∉ Keys ex_bc3.
Proof.
  split; [eexists; vm_compute; reflexivity|]. split; [vm_compute; reflexivity|].
  apply (C6_delete_then_not_found ex_bc2 ex_put2.2 102 "dog" ex_bc3 ex_del3.2).
  - eexists. vm_compute. reflexivity.
  - vm_compute. reflexivity.
Defined.

(** C7. A [Put] or [Delete] (or [Sync]) that returns an error, whichever
    step failed, leaves the key directory exactly as it was. *)
Theorem C7_failed_operation_keeps_keyDir o bc w bc' e w' :
  run_op o bc w = ((bc', Some e), w') → keyDir bc' = keyDir bc.
Proof.
  destruct o as [now key value|now key|]; simpl.
  - apply Put_err_keyDir.
  - apply Delete_err_keyDir.
  - unfold Sync. destruct (LogFile_Sync _ w) as [[lf e'] w1]. by intros [= <- _ _].
Qed.

Lemma C7_failed_operation_keeps_keyDir_witness :
  run_op (OpPut 101 "cat" (bytes "v2")) ex_bc1 {| files := ex_fs1; oracle := [Fail 3] |}
    = ((ex_put_fail.1.1, Some (ErrWrap "failed to flush" (ErrOS "write"))), ex_put_fail.2) ∧
  keyDir ex_put_fail.1.1 = keyDir ex_bc1.
Proof.
  split; [vm_compute; reflexivity|].
  apply (C7_failed_operation_keeps_keyDir (OpPut 101 "cat" (bytes "v2")) ex_bc1
           {| files := ex_fs1; oracle := [Fail 3] |} ex_put_fail.1.1
           (ErrWrap "failed to flush" (ErrOS "write")) ex_put_fail.2).
  vm_compute. reflexivity.
Defined.

(** Each step of [Put] can be the one that fails: the fsync or the creation
    of the new file during rotation, the write (here of a value larger than
    the buffer, with 10 bytes reaching the file), the flush, and the sync. *)
Example Put_failing_steps :
  let big := {| MaxFileSize := 10; SyncWrites := true; CompactionInterval := 0 |} in
  let bc := with_activeFile ex_bc1 (activeFile ex_bc1) in
  let full := {| keyDir := keyDir ex_bc1; activeFile := activeFile ex_bc1;
                 readOnlyFiles := ∅; config := big |} in
  (Put 1 "k" (bytes "v") full {| files := ex_fs1; oracle := [Fail 0] |}).1.2
    = Some (ErrWrap "failed to rotate active file" (ErrOS "fsync")) ∧
  (Put 1 "k" (bytes "v") full {| files := ex_fs1; oracle := [Succeed; Fail 0] |}).1.2
    = Some (ErrWrap "failed to rotate active file"
              (ErrWrap "failed to open log file" (ErrOS "open"))) ∧
  (Put 1 "k" (replicate 5000 "x"%byte) bc {| files := ex_fs1; oracle := [Fail 10] |}).1.2
    = Some (ErrWrap "failed to write entry" (ErrOS "write")) ∧
  (Put 1 "k" (bytes "v") bc {| files := ex_fs1; oracle := [Fail 0] |}).1.2
    = Some (ErrWrap "failed to flush" (ErrOS "write")) ∧
  (Put 1 "k" (bytes "v") full {| files := ex_fs1; oracle := [Succeed; Succeed; Succeed; Fail 0] |}).1.2
    = Some (ErrWrap "failed to sync" (ErrOS "fsync")).
Proof. vm_compute. done. Qed.

(** C8. When the tracked size of the active segment has reached the limit, a
    [Put] that returns without error has written its record into a segment
    that did not exist before, whose id is the greatest segment id plus one,
    and this segment is the new active one; the segment that was active is
    among the read-only files, was not written by this [Put], and is never
    written again by the operations that follow, whatever their faults
    (ids are assumed to have room below [2^32 - 1]). *)
Theorem C8_rotation_at_limit bc fs m faults now k v bc' w' :
  reachable bc fs m →
  MaxFileSize (config bc) ≤ lf_size (activeFile bc) →
  max_segment_id bc < 2 ^ 32 - 1 →
  Put now k v bc {| files := fs; oracle := faults |} = ((bc', None), w') →
  let old := lf_id (activeFile bc) in
  let new := max_segment_id bc + 1 in
  fs !! new = None ∧ lf_id (activeFile bc') = new ∧
  files w' !! new = Some (encode (putEntry now k v)) ∧
  (∃ e, keyDir bc' !! k = Some e ∧ FileID e = new) ∧
  is_Some (readOnlyFiles bc' !! old) ∧ old < new ∧
  files w' !! old = fs !! old ∧
  ∀ bc'' fs'', runs bc' (files w') bc'' fs'' →
    fs'' !! old = fs !! old ∧ old < lf_id (activeFile bc'').
Proof.
  intros Hr Hfull Hroom HPut old new.
  pose proof (reachable_segments_known _ _ _ Hr) as Hknown.
  apply reachable_inv in Hr as [Hok _].
  destruct (Put_spec now k v bc {| files := fs; oracle := faults |} _ _ _ Hok HPut)
    as [_ (bc1 & w1 & Hrot & Hok1 & Happ & Hkd)].
  unfold rotate_if_full in Hrot. unfold LogFile_Size in Hrot.
  destruct (Z.leb_spec (MaxFileSize (config bc)) (lf_size (activeFile bc))); [|lia].
  apply rotateActiveFile_ok in Hrot as (lf1 & fs1 & Hf & Hro1 & Hact1 & Hfs1 & _ & _).
  cbn [files] in Hf.
  destruct (max_segment_id_ge bc) as [Hge H0].
  (* the flush of the rotation had nothing to write *)
  assert (Hfs : fs1 = fs ∧ lf_id lf1 = old).
  { destruct Hok as (Hro & Hwok & _).
    destruct Hf as (x & Hx & Hid & _ & _ & Hclean & _ & Hfin).
    destruct (Hclean (Hfin Hro eq_refl)) as [He Hfl].
    destruct (Hwok He) as (Hb & _). destruct (Hfl Hro) as [-> _]. rewrite Hb in Hx.
    split; [|done]. rewrite Hx. symmetry. apply appends_nil. }
  destruct Hfs as [-> Hid1].
  assert (Hnew : u32 (maxID (readOnlyFiles bc1) + 1) = new).
  { rewrite Hro1, Hid1. unfold new, max_segment_id.
    rewrite (maxID_insert_value _ _ lf1 (activeFile bc)). apply u32_small.
    unfold max_segment_id in *. fold old in H0, Hroom |- *. lia. }
  rewrite Hnew in Hact1, Hfs1.
  assert (Hfresh : fs !! new = None).
  { destruct (fs !! new) as [c|] eqn:Hc; [|done]. exfalso.
    destruct (Hknown new) as [Hn|Hn]; [by rewrite Hc|unfold new; lia|..].
    - unfold new, old in *. lia.
    - assert (new ≤ max_segment_id bc); [|unfold new in *; lia].
      apply maxID_ge. destruct (decide (new = old)) as [->|Hne].
      + by rewrite lookup_insert_eq.
      + by rewrite lookup_insert_ne. }
  assert (Haid1 : lf_id (activeFile bc1) = new) by (by rewrite Hact1).
  destruct Happ as (Happ & Hex & _ & Hro' & _ & Hid' & _). rewrite Haid1 in *.
  assert (Hfs1' : files w1 = <[new := []]> fs).
  { rewrite Hfs1. unfold created. by rewrite Hfresh. }
  assert (Hold : old < new) by (unfold new, old in *; lia).
  assert (Hsame : files w' !! old = fs !! old).
  { rewrite (appends_lookup_ne _ _ _ _ _ Happ) by lia.
    rewrite Hfs1', lookup_insert_ne; [done|lia]. }
  split; [done|]. split; [done|]. split.
  { rewrite (appends_lookup _ _ _ _ Happ), Hfs1', lookup_insert_eq. done. }
  split.
  { eexists. rewrite Hkd, lookup_insert_eq. split; [done|]. done. }
  split; [by rewrite Hro', Hro1, Hid1, lookup_insert_eq|].
  split; [done|]. split; [done|].
  intros bc'' fs'' Hruns.
  destruct (runs_sealed _ _ _ _ old Hruns) as [Heq Hlt]; [lia|].
  split; [by rewrite Heq|done].
Qed.

Lemma C8_rotation_at_limit_witness :
  reachable ex_bc4 (files ex_del4.2)
    (delete "cat" (delete "dog"
       (<["cat" := bytes "v2"]> (<["dog" := bytes "v1"]> (contents ex_bc0 ex_fs0))))) ∧
  MaxFileSize (config ex_bc4) ≤ lf_size (activeFile ex_bc4) ∧
  max_segment_id ex_bc4 < 2 ^ 32 - 1 ∧
  Put 104 "owl" (bytes "v3") ex_bc4 {| files := files ex_del4.2; oracle := [] |}
    = ((ex_bc5, None), ex_put5.2) ∧
  files ex_del4.2 !! (max_segment_id ex_bc4 + 1) = None ∧
  lf_id (activeFile ex_bc5) = max_segment_id ex_bc4 + 1 ∧
  files ex_put5.2 !! (max_segment_id ex_bc4 + 1)
    = Some (encode (putEntry 104 "owl" (bytes "v3"))) ∧
  (∃ e, keyDir ex_bc5 !! "owl" = Some e ∧ FileID e = max_segment_id ex_bc4 + 1) ∧
  is_Some (readOnlyFiles ex_bc5 !! lf_id (activeFile ex_bc4)) ∧
  lf_id (activeFile ex_bc4) < max_segment_id ex_bc4 + 1 ∧
  files ex_put5.2 !! lf_id (activeFile ex_bc4)
    = files ex_del4.2 !! lf_id (activeFile ex_bc4) ∧
  ∀ bc'' fs'', runs ex_bc5 (files ex_put5.2) bc'' fs'' →
    fs'' !! lf_id (activeFile ex_bc4) = files ex_del4.2 !! lf_id (activeFile ex_bc4) ∧
    lf_id (activeFile ex_bc4) < lf_id (activeFile bc'').
Proof.
  split; [apply ex_reachable4|]. split; [by vm_compute|]. split; [by vm_compute|].
  split; [vm_compute; reflexivity|].
  apply (C8_rotation_at_limit ex_bc4 (files ex_del4.2)
           (delete "cat" (delete "dog"
              (<["cat" := bytes "v2"]> (<["dog" := bytes "v1"]> (contents ex_bc0 ex_fs0)))))
           [] 104 "owl" (bytes "v3") ex_bc5 ex_put5.2).
  - apply ex_reachable4.
  - by vm_compute.
  - by vm_compute.
  - vm_compute. reflexivity.
Defined.

(** Why the ids need room: after the segment [2^32 - 1] the next id wraps
    around to 0. *)
Example createActiveFile_wraps :
  (createActiveFile {[ 4294967295 := readOnlyLogFile 4294967295 [] ]}
     {| files := {[ 4294967295 := [] ]}; oracle := [] |}).1
  = Ok {| lf_id := 0; lf_writer := clean_writer; lf_size := 0; lf_readOnly := false |}.
Proof. vm_compute. reflexivity. Qed.



(** C10. [Delete] never rotates: whatever its outcome, the active file keeps
    its id, the read-only files are the same and no file is created; a
    successful [Delete] grows the active file by the tombstone without any
    check of the size limit.  So deletes can take the active file to the
    limit and beyond (here 34, then 49 and 64 bytes for a limit of 40) and
    it stays the active file until the next [Put], which rotates. *)
Theorem C10_delete_never_rotates :
  (∀ now key bc w,
     let '((bc', _), w') := Delete now key bc w in
     lf_id (activeFile bc') = lf_id (activeFile bc) ∧
     readOnlyFiles bc' = readOnlyFiles bc ∧ dom (files w') = dom (files w)) ∧
  (∀ bc fs m faults now key bc' w',
     reachable bc fs m →
     Delete now key bc {| files := fs; oracle := faults |} = ((bc', None), w') →
     lf_size (activeFile bc') = lf_size (activeFile bc) + 12 + len (bytes key)) ∧
  (reachable ex_bc2 (files ex_put2.2)
     (<["cat" := bytes "v2"]> (<["dog" := bytes "v1"]> (contents ex_bc0 ex_fs0))) ∧
   MaxFileSize (config ex_bc2) = 40 ∧ lf_size (activeFile ex_bc2) = 34 ∧
   Delete 102 "dog" ex_bc2 ex_put2.2 = ((ex_bc3, None), ex_del3.2) ∧
   lf_size (activeFile ex_bc3) = 49 ∧
   Delete 103 "cat" ex_bc3 ex_del3.2 = ((ex_bc4, None), ex_del4.2) ∧
   lf_size (activeFile ex_bc4) = 64 ∧
   lf_id (activeFile ex_bc4) = 1 ∧ readOnlyFiles ex_bc4 = ∅ ∧
   Put 104 "owl" (bytes "v3") ex_bc4 ex_del4.2 = ((ex_bc5, None), ex_put5.2) ∧
   lf_id (activeFile ex_bc5) = 2 ∧ is_Some (readOnlyFiles ex_bc5 !! 1)).
Proof.
  split; [|split].
  - intros now key bc w. apply Delete_frame.
  - intros bc fs m faults now key bc' w' Hr HDel.
    apply reachable_inv in Hr as [Hok _].
    destruct (Delete_spec now key bc {| files := fs; oracle := faults |} _ _ _ Hok HDel)
      as [_ (_ & Happ & _)].
    destruct Happ as (Happ & Hex & Hsz & _ & _ & _ & _ & _ & _ & Hsz').
    rewrite Hsz', Hsz. cbn [files] in *.
    rewrite (appends_content _ _ _ _ Happ Hex). unfold len.
    rewrite length_app. pose proof (encode_length (tombstone now key)) as Hl.
    unfold len in Hl. cbn [tombstone le_Key le_Value length] in Hl.
    unfold bytes. lia.
  - split.
    { apply (reachable_step ex_bc1 ex_fs1 _ (OpPut 101 "cat" (bytes "v2")) []
               ex_bc2 None ex_put2.2); [apply ex_reachable1|by vm_compute|].
      vm_compute. reflexivity. }
    vm_compute. repeat split; try done. by eexists.
Qed.
